(** * fetch-with-render: the render core and its dispatcher

    A shallow embedding of
    - the HTML clean-up, the script builders and the polling event loop of
      [run_webview_blocking] (the Rust layer, as documented with its code
      in the architecture notes),
    - the child-process dispatcher of [RenderableResponse.render]
      (src/response.mjs), and
    - the single-shot worker (render-worker.mjs),
    with, for the scripts that the Rust layer hands to the WebView, the
    fragment of JavaScript they are written in, evaluated on a page;
    followed by the properties of the specification that concern them.

    Strings are [string]s of bytes.  Every pattern the code searches for is
    ASCII, and an ASCII byte never occurs inside a multi-byte UTF-8
    sequence, so the byte-wise functions below agree with Rust's
    character-wise ones on valid UTF-8. *)

From Stdlib Require Import List ZArith NArith Lia Bool Arith.
From Stdlib Require Import Strings.Ascii Strings.String Numbers.DecimalString.
Import ListNotations.

Local Open Scope string_scope.

(** ** Results, as in Rust's [Result<T, E>] *)

Inductive Result (T E : Type) : Type :=
| Ok (value : T)
| Err (error : E).
Arguments Ok {T E} value.
Arguments Err {T E} error.

(** ** String primitives used by the sources *)

Module Str.

(** The double-quote character (byte 34). *)
Definition dquote : ascii := ascii_of_nat 34.

(** The line-feed character (byte 10). *)
Definition newline : ascii := ascii_of_nat 10.

(** The backslash character (byte 92). *)
Definition backslash : ascii := ascii_of_nat 92.

(** A string made of one character. *)
Definition of_char (c : ascii) : string := String c EmptyString.

(** [n] copies of the character [c]. *)
Fixpoint repeat_char (c : ascii) (n : nat) : string :=
  match n with
  | O => EmptyString
  | S m => String c (repeat_char c m)
  end.

(** Rust's [str::trim_start_matches] with a [char] pattern: drops every
    leading occurrence of [c]. *)
Fixpoint trim_start_matches (c : ascii) (s : string) : string :=
  match s with
  | EmptyString => EmptyString
  | String a rest =>
      if Ascii.eqb a c then trim_start_matches c rest else s
  end.

(** Rust's [str::trim_end_matches] with a [char] pattern: drops every
    trailing occurrence of [c]. *)
Fixpoint trim_end_matches (c : ascii) (s : string) : string :=
  match s with
  | EmptyString => EmptyString
  | String a rest =>
      match trim_end_matches c rest with
      | EmptyString =>
          if Ascii.eqb a c then EmptyString else String a EmptyString
      | String b kept => String a (String b kept)
      end
  end.

(** Rust's [str::trim_matches] with a [char] pattern: the slice between
    the first and the last character that differ from [c]. *)
Definition trim_matches (c : ascii) (s : string) : string :=
  trim_end_matches c (trim_start_matches c s).

(** [s] without its first [n] bytes. *)
Fixpoint drop (n : nat) (s : string) : string :=
  match n, s with
  | O, _ => s
  | S _, EmptyString => EmptyString
  | S m, String _ rest => drop m rest
  end.

(** Rust's [str::replace] for a non-empty pattern: the matches are found
    from left to right and do not overlap; each is replaced by [to].
    [fuel] bounds the number of positions examined. *)
Fixpoint replace_from (fuel : nat) (pat to s : string) : string :=
  match fuel with
  | O => s
  | S fuel' =>
      match s with
      | EmptyString => EmptyString
      | String a rest =>
          if prefix pat s
          then to ++ replace_from fuel' pat to (drop (String.length pat) s)
          else String a (replace_from fuel' pat to rest)
      end
  end.

Definition replace (pat to s : string) : string :=
  replace_from (String.length s) pat to s.

(** JavaScript's [String.prototype.includes] (also Rust's [contains]):
    [pat] occurs in [s]; the comparison is case-sensitive. *)
Fixpoint includes (pat s : string) : bool :=
  if prefix pat s then true
  else match s with
       | EmptyString => false
       | String _ rest => includes pat rest
       end.

(** [s] starts with the character [c]. *)
Definition starts_with_char (c : ascii) (s : string) : bool :=
  match s with
  | EmptyString => false
  | String a _ => Ascii.eqb a c
  end.

(** [s] ends with the character [c]. *)
Fixpoint ends_with_char (c : ascii) (s : string) : bool :=
  match s with
  | EmptyString => false
  | String a EmptyString => Ascii.eqb a c
  | String _ rest => ends_with_char c rest
  end.

(** Decimal rendering of an integer, as a JavaScript template literal
    prints an integral number below 10^21. *)
Definition of_Z (z : Z) : string := NilZero.string_of_int (Z.to_int z).

End Str.

(** ** The Rust layer: [run_webview_blocking] *)

Module Native.

(** [pub enum RenderError]. *)
Inductive RenderError : Type :=
| WindowCreation (msg : string)
| WebViewCreation (msg : string)
| Timeout
| ScriptExecution (msg : string)
| Unknown (msg : string).

(** [pub struct RenderOptions]; [timeout] is a [u64]. *)
Record RenderOptions : Type := {
  timeout : option N;
  wait_for : option string;
  selector : option string;
  script : option string
}.

(** The arm of [impl From<RenderError> for napi::Error] that the
    architecture notes show: the reason given for [RenderError::Timeout]. *)
Definition timeout_reason : string :=
  "RenderTimeoutError: Rendering timed out".

(** What [webview.evaluate_script] hands back: the serialized value of
    the script, or the evaluation error. *)
Definition EvalResult : Type := Result string string.

(** The WebView is outside the program.  It is represented by the answer
    it gives to the [n]-th call of [evaluate_script] of a session (calls
    counted from 0) for the script text passed; a page whose state
    changes, by itself or through the scripts run, is a function that
    depends on [n]. *)
Definition WebView : Type := nat -> string -> EvalResult.

(** The selector with a backslash put before every single quote
    (the [replace] applied to the selector in phases 5 and 7). *)
Definition escape_single_quotes (sel : string) : string :=
  Str.replace "'" (String Str.backslash "'") sel.

(** Phase 4: the script polled for the readiness flag. *)
Definition ready_script : string := "window.__renderReady".

(** Phase 5: [format!("!!document.querySelector('{}')", ...)]. *)
Definition wait_check_script (wait_selector : string) : string :=
  "!!document.querySelector('" ++ escape_single_quotes wait_selector ++ "')".

(** Phase 7: the extraction script. *)
Definition extract_script (selector : option string) : string :=
  match selector with
  | Some sel =>
      "(() => { const el = document.querySelector('"
        ++ escape_single_quotes sel
        ++ "'); return el ? el.outerHTML : ''; })()"
  | None => "document.documentElement.outerHTML"
  end.

(** The two-character sequence backslash, [n]. *)
Definition escaped_newline : string := String Str.backslash "n".

(** The two-character sequence backslash, double quote. *)
Definition escaped_dquote : string :=
  String Str.backslash (Str.of_char Str.dquote).

(** Phase 7, the two [replace] calls: first every backslash-n becomes a
    line feed, then every backslash-quote becomes a double quote. *)
Definition unescape (s : string) : string :=
  Str.replace escaped_dquote (Str.of_char Str.dquote)
    (Str.replace escaped_newline (Str.of_char Str.newline) s).

(** Phase 7, the value stored in [html]: the evaluator's answer with the
    double quotes trimmed off both ends, then unescaped. *)
Definition cleaned (result : string) : string :=
  unescape (Str.trim_matches Str.dquote result).

(** [ControlFlow] of the event loop. *)
Inductive ControlFlow : Type := Poll | Exit.

(** Why a script is evaluated; kept in the log of evaluations only. *)
Inductive Purpose : Type := PReady | PWait | PCustom | PExtract.

Definition purpose_eqb (p q : Purpose) : bool :=
  match p, q with
  | PReady, PReady | PWait, PWait | PCustom, PCustom
  | PExtract, PExtract => true
  | _, _ => false
  end.

(** One call of [evaluate_script]: why, which script, what came back. *)
Record Eval : Type := {
  purpose : Purpose;
  source : string;
  answer : EvalResult
}.

(** The variables the closure of the event loop shares ([loaded], [html],
    [error] behind their mutexes, and [*control_flow]), with the log of
    the evaluations made so far. *)
Record Loop : Type := {
  loaded : bool;
  html : option string;
  error : option RenderError;
  control_flow : ControlFlow;
  evals : list Eval
}.

Definition init : Loop :=
  {| loaded := false; html := None; error := None;
     control_flow := Poll; evals := [] |}.

Definition set_loaded (st : Loop) : Loop :=
  {| loaded := true; html := html st; error := error st;
     control_flow := control_flow st; evals := evals st |}.

Definition set_html (h : string) (st : Loop) : Loop :=
  {| loaded := loaded st; html := Some h; error := error st;
     control_flow := control_flow st; evals := evals st |}.

Definition set_error (e : RenderError) (st : Loop) : Loop :=
  {| loaded := loaded st; html := html st; error := Some e;
     control_flow := control_flow st; evals := evals st |}.

Definition exit (st : Loop) : Loop :=
  {| loaded := loaded st; html := html st; error := error st;
     control_flow := Exit; evals := evals st |}.

(** How many evaluations of the log were made for [p]. *)
Definition count_evals (p : Purpose) (st : Loop) : nat :=
  List.length (filter (fun e => purpose_eqb (purpose e) p) (evals st)).

Section Session.

Variable wv : WebView.
Variable opts : RenderOptions.
Variable timeout_ms : N.

(** Milliseconds elapsed since the session started, as read at the
    [k]-th [MainEventsCleared] event. *)
Variable elapsed : nat -> N.

(** [webview.evaluate_script(script)], logged. *)
Definition evaluate_script (p : Purpose) (src : string) (st : Loop)
  : EvalResult * Loop :=
  let r := wv (List.length (evals st)) src in
  (r, {| loaded := loaded st; html := html st; error := error st;
         control_flow := control_flow st;
         evals := (evals st ++ [ {| purpose := p; source := src;
                                    answer := r |} ])%list |}).

(** Phase 7: HTML extraction. *)
Definition extract_html (st : Loop) : Loop :=
  let (r, st1) :=
    evaluate_script PExtract (extract_script (selector opts)) st in
  match r with
  | Ok result => exit (set_html (cleaned result) st1)
  | Err e => exit (set_error (ScriptExecution e) st1)
  end.

(** Phase 6: custom script execution (optional). *)
Definition execute_script (st : Loop) : Loop :=
  match script opts with
  | Some custom_script =>
      let (r, st1) := evaluate_script PCustom custom_script st in
      match r with
      | Err e => exit (set_error (ScriptExecution e) st1)
      | Ok _ => extract_html st1
      end
  | None => extract_html st
  end.

(** Phase 5: wait for selector (optional).  Only an [Ok] answer other
    than [true] keeps waiting; an [Err] falls through. *)
Definition wait_for_selector (st : Loop) : Loop :=
  match wait_for opts with
  | Some wait_selector =>
      let (r, st1) :=
        evaluate_script PWait (wait_check_script wait_selector) st in
      match r with
      | Ok result =>
          if negb (String.eqb result "true") then st1
          else execute_script st1
      | Err _ => execute_script st1
      end
  | None => execute_script st
  end.

(** Phase 4: load detection; the event always returns after it. *)
Definition detect_load (st : Loop) : Loop :=
  let (r, st1) := evaluate_script PReady ready_script st in
  match r with
  | Ok result => if String.eqb result "true" then set_loaded st1 else st1
  | Err _ => st1
  end.

(** Modelled from the spec: the timeout check of the event loop, which
    the architecture notes announce for [run_webview_blocking] but do
    not show.  It is made once per tick, on the time elapsed since the
    session started: if the elapsed time has reached the timeout, the
    session ends with the failure [Timeout]. *)
Definition timed_out (k : nat) : bool := (timeout_ms <=? elapsed k)%N.

(** The body of [Event::MainEventsCleared], at the [k]-th such event. *)
Definition main_events_cleared (k : nat) (st : Loop) : Loop :=
  if timed_out k then exit (set_error Timeout st)
  else if negb (loaded st) then detect_load st
  else wait_for_selector st.

(** [event_loop.run]: events are delivered until the closure asks for
    [ControlFlow::Exit]; [fuel] bounds the number of events. *)
Fixpoint event_loop (fuel : nat) (k : nat) (st : Loop) : Loop :=
  match fuel with
  | O => st
  | S fuel' =>
      match control_flow st with
      | Exit => st
      | Poll => event_loop fuel' (S k) (main_events_cleared k st)
      end
  end.

(** Modelled from the spec: what [run_webview_blocking] returns once
    the loop has exited, which the architecture notes do not show: the
    one terminal outcome, the failure recorded in [error] or else the
    HTML recorded in [html].  [None] while the loop is still polling. *)
Definition outcome (st : Loop) : option (Result string RenderError) :=
  match control_flow st with
  | Poll => None
  | Exit =>
      Some match error st, html st with
           | Some e, _ => Err e
           | None, Some h => Ok h
           | None, None => Err (Unknown "no result")
           end
  end.

(** [run_webview_blocking], from the event loop on: phases 1 and 2 (the
    window and the WebView, built with the URL and the initialization
    script) are taken to have succeeded. *)
Definition run_webview_blocking (fuel : nat)
  : option (Result string RenderError) :=
  outcome (event_loop fuel 0 init).

End Session.

(** A loop that still polls has recorded neither a failure nor HTML. *)
Definition polling_clean (st : Loop) : Prop :=
  control_flow st = Poll -> error st = None /\ html st = None.

(** *** The log of a session *)

Section Log.

Variable wv : WebView.
Variable opts : RenderOptions.
Variable custom : string.

(** An evaluation made while waiting: a poll of the readiness flag or of
    the selector. *)
Definition waiting (e : Eval) : Prop :=
  purpose e = PReady \/ purpose e = PWait.

(** A poll of the readiness flag that found the page loaded. *)
Definition found_ready (e : Eval) : Prop :=
  purpose e = PReady /\ answer e = Ok "true".

(** An answer that ends the wait for the selector. *)
Definition passed (r : EvalResult) : Prop :=
  match r with Ok result => result = "true" | Err _ => True end.

(** The evaluations of the wait for the selector made in the last tick:
    none without [wait_for], else the one query that ended the wait. *)
Definition last_wait (w : list Eval) : Prop :=
  match wait_for opts with
  | None => w = []
  | Some ws =>
      exists x, w = [x] /\ purpose x = PWait
                /\ source x = wait_check_script ws /\ passed (answer x)
  end.

(** The log of a session that ran the custom script: polls only, among
    them one that found the page loaded; the end of the wait for the
    selector; the custom script; then at most the extraction, and nothing
    when the script failed, in which case its error is the failure
    recorded. *)
Definition ran_after_waiting (st : Loop) : Prop :=
  exists pre w c post,
    evals st = (pre ++ w ++ c :: post)%list
    /\ Forall waiting pre
    /\ Exists found_ready pre
    /\ last_wait w
    /\ purpose c = PCustom
    /\ source c = custom
    /\ answer c = wv (List.length (pre ++ w)%list) custom
    /\ Forall (fun x => purpose x = PExtract) post
    /\ forall e, answer c = Err e ->
                 post = [] /\ error st = Some (ScriptExecution e).

(** The three situations a session can be in. *)
Definition session_inv (st : Loop) : Prop :=
  (control_flow st = Poll /\ error st = None
   /\ Forall waiting (evals st)
   /\ (loaded st = true -> Exists found_ready (evals st)))
  \/ (control_flow st = Exit /\ error st = Some Timeout
      /\ Forall waiting (evals st))
  \/ (control_flow st = Exit /\ error st <> Some Timeout
      /\ ran_after_waiting st).

End Log.

End Native.

(** ** The JavaScript layer: [RenderableResponse.render] (src/response.mjs) *)

Module Dispatcher.

(** The [options] object of [render]; an absent key is [None].  Numbers
    are taken integral. *)
Record Options : Type := {
  timeout : option Z;
  waitFor : option string;
  selector : option string;
  script : option string
}.

Definition no_options : Options :=
  {| timeout := None; waitFor := None; selector := None; script := None |}.

(** A [RenderableResponse], reduced to the private field [render] reads. *)
Record RenderableResponse : Type := { url : string }.

(** How a call of [render] is carried out. *)
Inductive Path : Type :=
| Direct (url : string) (renderOptions : Options)
| ChildProcess (url : string) (renderOptions : Options).

Definition is_direct (p : Path) : bool :=
  match p with Direct _ _ => true | ChildProcess _ _ => false end.

(** [render]: the module-level [renderCount] is incremented, then the
    first call goes to the native module and any other one to a child
    process.  Returns the new [renderCount] with the path taken. *)
Definition render (renderCount : N) (self : RenderableResponse)
    (options : Options) : N * Path :=
  let renderCount := (renderCount + 1)%N in
  (renderCount,
   if (renderCount =? 1)%N then Direct (url self) options
   else ChildProcess (url self) options).

(** The calls made during one process lifetime, in order; the counter
    is shared by all of them. *)
Fixpoint render_calls (renderCount : N)
    (calls : list (RenderableResponse * Options)) : N * list Path :=
  match calls with
  | [] => (renderCount, [])
  | (self, options) :: rest =>
      let (renderCount1, path) := render renderCount self options in
      let (renderCount2, paths) := render_calls renderCount1 rest in
      (renderCount2, path :: paths)
  end.

(** How the promise returned by [render] is settled. *)
Inductive Settlement : Type :=
| Resolve (html : string)
| Reject (message : string).

(** A message received from the worker over IPC, reduced to the fields
    the handler reads; a field that is absent is falsy. *)
Record Message : Type := {
  ready : bool;
  success : bool;
  html : string;
  error : string
}.

(** JavaScript truthiness of a string. *)
Definition truthy (s : string) : bool :=
  match s with EmptyString => false | String _ _ => true end.

(** [options.timeout || 5000]. *)
Definition render_timeout (options : Options) : Z :=
  match timeout options with
  | Some t => if (t =? 0)%Z then 5000%Z else t
  | None => 5000%Z
  end.

(** The longest delay a timer of Node holds, in milliseconds. *)
Definition TIMEOUT_MAX : Z := 2147483647%Z.

(** [setTimeout(callback, delay)], as Node sets the timer: a delay that
    is larger than [TIMEOUT_MAX] or less than 1 is set to 1. *)
Definition timer_delay (delay : Z) : Z :=
  if ((1 <=? delay) && (delay <=? TIMEOUT_MAX))%Z then delay else 1%Z.

(** The delay after which [killTimeout] runs:
    [setTimeout(..., timeout + 2000)].  The sum of two integral numbers
    is exact up to 2^53, far above [TIMEOUT_MAX], and rounding keeps a
    larger sum above it. *)
Definition kill_delay (options : Options) : Z :=
  timer_delay (render_timeout options + 2000)%Z.

(** The message of the error [killTimeout] rejects with. *)
Definition timeout_message (options : Options) : string :=
  "Render timeout after " ++ Str.of_Z (render_timeout options) ++ "ms".

(** The exit code of a child: a number, or [null] ([None]) when a signal
    ended it. *)
Definition code_text (code : option Z) : string :=
  match code with Some c => Str.of_Z c | None => "null" end.

(** [code !== 0]. *)
Definition code_is_not_zero (code : option Z) : bool :=
  match code with Some c => negb (c =? 0)%Z | None => true end.

(** The message of the error the [exit] handler rejects with. *)
Definition exit_message (code : option Z) : string :=
  if code_is_not_zero code
  then "Worker process exited with code " ++ code_text code
  else "Worker exited without sending result".

(** What the event loop of the parent can deliver to the handlers that
    [#renderInChildProcess] installs. *)
Inductive Event : Type :=
| OnMessage (message : Message)
| OnError (message : string)
| OnExit (code : option Z)
| OnKillTimeout.

(** The variables of one [#renderInChildProcess] call: [workerReady],
    [resolved], whether [killTimeout] is still pending, whether
    [child.kill()] was called, the requests sent to the child, and the
    calls of [resolve] and [reject] made, in order. *)
Record Child : Type := {
  workerReady : bool;
  resolved : bool;
  killTimeout : bool;
  killed : bool;
  requests : list (string * Options);
  settled : list Settlement
}.

(** After [fork] and [setTimeout]. *)
Definition forked : Child :=
  {| workerReady := false; resolved := false; killTimeout := true;
     killed := false; requests := []; settled := [] |}.

(** [resolved = true; clearTimeout(killTimeout);] then [resolve] or
    [reject]. *)
Definition settle (s : Settlement) (c : Child) : Child :=
  {| workerReady := workerReady c; resolved := true; killTimeout := false;
     killed := killed c; requests := requests c;
     settled := (settled c ++ [s])%list |}.

(** The body of the [killTimeout] callback, guarded by [!resolved]. *)
Definition kill_and_reject (options : Options) (c : Child) : Child :=
  {| workerReady := workerReady c; resolved := true; killTimeout := false;
     killed := true; requests := requests c;
     settled := (settled c ++ [Reject (timeout_message options)])%list |}.

(** The [ready] branch of the message handler. *)
Definition send_request (url : string) (options : Options) (c : Child)
  : Child :=
  {| workerReady := true; resolved := resolved c;
     killTimeout := killTimeout c; killed := killed c;
     requests := (requests c ++ [(url, options)])%list;
     settled := settled c |}.

(** A timer that has run is no longer pending. *)
Definition timer_ran (c : Child) : Child :=
  {| workerReady := workerReady c; resolved := resolved c;
     killTimeout := false; killed := killed c; requests := requests c;
     settled := settled c |}.

Section Handlers.

Variable url : string.
Variable options : Options.

Definition on_message (message : Message) (c : Child) : Child :=
  if ready message then send_request url options c
  else if success message then
    if negb (resolved c) then settle (Resolve (html message)) c else c
  else if truthy (error message) then
    if negb (resolved c) then settle (Reject (error message)) c else c
  else c.

Definition on_error (message : string) (c : Child) : Child :=
  if negb (resolved c) then settle (Reject message) c else c.

Definition on_exit (code : option Z) (c : Child) : Child :=
  if negb (resolved c) then settle (Reject (exit_message code)) c else c.

(** The timer calls back only while it is pending, and once. *)
Definition on_kill_timeout (c : Child) : Child :=
  if killTimeout c then
    if negb (resolved c) then kill_and_reject options c
    else timer_ran c
  else c.

Definition handle (c : Child) (e : Event) : Child :=
  match e with
  | OnMessage m => on_message m c
  | OnError m => on_error m c
  | OnExit code => on_exit code c
  | OnKillTimeout => on_kill_timeout c
  end.

(** The handlers run on the events delivered, in order. *)
Definition deliver (events : list Event) : Child :=
  fold_left handle events forked.

(** A pending timer eventually fires: the call as it stands once the
    events were delivered and [killTimeout], unless cleared, has run. *)
Definition renderInChildProcess (events : list Event) : Child :=
  on_kill_timeout (deliver events).

End Handlers.

(** The settlements of the promise [render] returns: on the direct path
    the one of the promise of the native [renderPage] (native.js is not
    part of the sources; [native] stands for its settlement), on the
    other path the calls made by [#renderInChildProcess]. *)
Definition render_settlements (p : Path) (native : Settlement)
    (events : list Event) : list Settlement :=
  match p with
  | Direct _ _ => [native]
  | ChildProcess url options =>
      settled (renderInChildProcess url options events)
  end.

(** The invariant of a call: while nothing was settled the kill timer is
    pending and no call of [resolve] or [reject] was made; afterwards
    exactly one was. *)
Definition settled_once (c : Child) : Prop :=
  if resolved c then List.length (settled c) = 1
  else killTimeout c = true /\ settled c = [].

End Dispatcher.

(** ** The worker process (render-worker.mjs) *)

Module Worker.

(** A thrown JavaScript value, reduced to what the handlers read:
    [error.message] and [String(error)]. *)
Record JsError : Type := { message : string; as_string : string }.

(** [error.message || String(error)]. *)
Definition error_text (e : JsError) : string :=
  if Dispatcher.truthy (message e) then message e else as_string e.

(** The request received over IPC. *)
Record Request : Type := {
  url : string;
  options : option Dispatcher.Options
}.

(** [options || {}]. *)
Definition options_or_empty (r : Request) : Dispatcher.Options :=
  match options r with Some o => o | None => Dispatcher.no_options end.

(** The worker as its parent sees it: the messages sent, in order; the
    callbacks of the sends that have not run yet, oldest first, each
    reduced to the code it hands to [process.exit]; and the exit code
    once [process.exit] was called. *)
Record Process : Type := {
  sent : list Dispatcher.Message;
  callbacks : list Z;
  exit_code : option Z
}.

Definition ready_message : Dispatcher.Message :=
  {| Dispatcher.ready := true; Dispatcher.success := false;
     Dispatcher.html := EmptyString; Dispatcher.error := EmptyString |}.

Definition success_message (html : string) : Dispatcher.Message :=
  {| Dispatcher.ready := false; Dispatcher.success := true;
     Dispatcher.html := html; Dispatcher.error := EmptyString |}.

Definition failure_message (error : string) : Dispatcher.Message :=
  {| Dispatcher.ready := false; Dispatcher.success := false;
     Dispatcher.html := EmptyString; Dispatcher.error := error |}.

(** [process.send(message, () => process.exit(code))]: the message is
    sent at once; the callback is kept, to run when the message has left
    the process. *)
Definition send_then_exit (m : Dispatcher.Message) (code : Z) (p : Process)
  : Process :=
  {| sent := (sent p ++ [m])%list;
     callbacks := (callbacks p ++ [code])%list;
     exit_code := exit_code p |}.

(** The last statement of the module: [process.send({ ready: true })],
    a send without a callback. *)
Definition started : Process :=
  {| sent := [ready_message]; callbacks := []; exit_code := None |}.

(** The callback of the oldest send still waiting runs:
    [process.exit(code)]. *)
Definition on_send_callback (p : Process) : Process :=
  match callbacks p with
  | code :: rest =>
      {| sent := sent p; callbacks := rest; exit_code := Some code |}
  | [] => p
  end.

(** What the event loop of the worker can run: the [message] handler on
    a request, the [uncaughtException] handler on a fault, or the
    callback of a send. *)
Inductive Event : Type :=
| Incoming (request : Request)
| UncaughtException (error : JsError)
| SendCallback.

(** The events that make a handler send an outcome. *)
Definition asks_outcome (e : Event) : bool :=
  match e with
  | Incoming _ | UncaughtException _ => true
  | SendCallback => false
  end.

Section WithNative.

(** [renderPage] of native.mjs, which is not part of the sources: it
    returns the HTML or throws. *)
Variable renderPage : string -> Dispatcher.Options -> Result string JsError.

(** The [message] handler: the [try] and its [catch]. *)
Definition on_message (request : Request) (p : Process) : Process :=
  match renderPage (url request) (options_or_empty request) with
  | Ok html => send_then_exit (success_message html) 0 p
  | Err error => send_then_exit (failure_message (error_text error)) 1 p
  end.

(** The [uncaughtException] handler. *)
Definition on_uncaught_exception (error : JsError) (p : Process)
  : Process :=
  send_then_exit
    (failure_message ("Uncaught exception: " ++ error_text error)) 1 p.

(** A process that has exited handles nothing more. *)
Definition handle (p : Process) (e : Event) : Process :=
  match exit_code p with
  | Some _ => p
  | None =>
      match e with
      | Incoming request => on_message request p
      | UncaughtException error => on_uncaught_exception error p
      | SendCallback => on_send_callback p
      end
  end.

Definition run (events : list Event) : Process :=
  fold_left handle events started.

End WithNative.

(** An outcome message: any message but the readiness signal. *)
Definition is_outcome (m : Dispatcher.Message) : bool :=
  negb (Dispatcher.ready m).

Definition outcomes (p : Process) : list Dispatcher.Message :=
  filter is_outcome (sent p).

End Worker.

(** ** Sample sessions *)

Module Sample.

(** Ticks 100 ms apart, the first one at the start of the session. *)
Definition every_100ms (k : nat) : N := N.of_nat (100 * k).

Definition wait_late : Native.RenderOptions :=
  {| Native.timeout := Some 500%N; Native.wait_for := Some ".late";
     Native.selector := None; Native.script := None |}.

Definition extract_missing : Native.RenderOptions :=
  {| Native.timeout := None; Native.wait_for := Some "#app";
     Native.selector := Some ".missing";
     Native.script := Some "document.title = 'T-123'" |}.

(** The script of the specification's example, and a page on which its
    evaluation reports the exception thrown. *)
Definition boom_script : string := "(() => { throw new Error('boom') })()".

Definition boom_page : Native.WebView :=
  fun _ src =>
    if String.eqb src Native.ready_script then Ok "true"
    else if String.eqb src boom_script then Err "Error: boom"
    else Ok "null".

(** A render asked to wait up to 2147481648 ms. *)
Definition long_timeout : Dispatcher.Options :=
  {| Dispatcher.timeout := Some 2147481648%Z; Dispatcher.waitFor := None;
     Dispatcher.selector := None; Dispatcher.script := None |}.

(** A render asked to wait up to 8000 ms. *)
Definition timeout_8000 : Dispatcher.Options :=
  {| Dispatcher.timeout := Some 8000%Z; Dispatcher.waitFor := None;
     Dispatcher.selector := None; Dispatcher.script := None |}.

(** A native module that renders every page but the one at [bad:],
    on which it throws. *)
Definition renders_but_bad (url : string) (options : Dispatcher.Options)
  : Result string Worker.JsError :=
  if String.eqb url "bad:"
  then Err {| Worker.message := "RenderTimeoutError: Rendering timed out";
              Worker.as_string
              := "Error: RenderTimeoutError: Rendering timed out" |}
  else Ok "<html></html>".

Definition good_request : Worker.Request :=
  {| Worker.url := "http://a.test/"; Worker.options := None |}.

Definition bad_request : Worker.Request :=
  {| Worker.url := "bad:"; Worker.options := None |}.

Definition boom : Worker.JsError :=
  {| Worker.message := "boom"; Worker.as_string := "Error: boom" |}.

(** A wait for a text that is not a valid selector. *)
Definition wait_typo : Native.RenderOptions :=
  {| Native.timeout := None; Native.wait_for := Some "div[";
     Native.selector := None; Native.script := None |}.

(** The extraction of the elements of class [md:flex]. *)
Definition extract_escaped_class : Native.RenderOptions :=
  {| Native.timeout := None; Native.wait_for := None;
     Native.selector := Some ".md\:flex"; Native.script := None |}.

(** The extraction of the element of id [a.b]. *)
Definition extract_escaped_id : Native.RenderOptions :=
  {| Native.timeout := None; Native.wait_for := None;
     Native.selector := Some "#a\.b"; Native.script := None |}.

Definition run_boom : Native.RenderOptions :=
  {| Native.timeout := None; Native.wait_for := None;
     Native.selector := None; Native.script := Some boom_script |}.

End Sample.

(** ** The worker and the dispatcher, connected *)

Module Pipeline.

(** A message of the worker that asks for a request: the [ready] branch of
    the dispatcher's handler. *)
Definition asks_request (e : Dispatcher.Event) : bool :=
  match e with
  | Dispatcher.OnMessage m => Dispatcher.ready m
  | _ => false
  end.

(** The request the worker receives for a [child.send] of the dispatcher:
    the object sent carries [url] and [options]. *)
Definition received (r : string * Dispatcher.Options) : Worker.Event :=
  Worker.Incoming {| Worker.url := fst r; Worker.options := Some (snd r) |}.

(** What the parent is delivered from a worker: its messages in the order
    sent, then its exit once it has called [process.exit]. *)
Definition delivered (p : Worker.Process) : list Dispatcher.Event :=
  (map Dispatcher.OnMessage (Worker.sent p)
   ++ match Worker.exit_code p with
      | Some code => [Dispatcher.OnExit (Some code)]
      | None => []
      end)%list.

Section Connected.

Variable renderPage :
  string -> Dispatcher.Options -> Result string Worker.JsError.
Variable url : string.
Variable options : Dispatcher.Options.

(** The worker of one [#renderInChildProcess] call: it starts, is handed
    the requests that the dispatcher sends on its first messages, and
    then the callback of its send runs. *)
Definition worker : Worker.Process :=
  fold_left (Worker.handle renderPage)
    (map received
       (Dispatcher.requests
          (Dispatcher.deliver url options (delivered Worker.started)))
     ++ [Worker.SendCallback])%list
    Worker.started.

(** The call, once the worker has run and the parent was delivered all it
    sent. *)
Definition child_render : Dispatcher.Child :=
  Dispatcher.renderInChildProcess url options (delivered worker).

End Connected.

End Pipeline.

(** ** JavaScript values and option objects *)

Module Js.

(** A JavaScript value, as far as the option handling tells values apart;
    [Ref] stands for any object, array or function. *)
Inductive Value : Type :=
| Undefined
| Null
| Bool (b : bool)
| Num (z : Z)
| Text (s : string)
| Ref.

(** An object: its own properties in insertion order. *)
Definition Object : Type := list (string * Value).

(** [o[k]]: the value of the property, [undefined] when there is none. *)
Definition get (o : Object) (k : string) : Value :=
  match find (fun kv => String.eqb (fst kv) k) o with
  | Some kv => snd kv
  | None => Undefined
  end.

(** [v === undefined]. *)
Definition is_undefined (v : Value) : bool :=
  match v with Undefined => true | _ => false end.

(** The truthiness of a value, as [if (v)] tests it. *)
Definition truthy (v : Value) : bool :=
  match v with
  | Undefined | Null => false
  | Bool b => b
  | Num z => negb (z =? 0)%Z
  | Text s => Dispatcher.truthy s
  | Ref => true
  end.

(** The four options [render] knows. *)
Definition option_keys : list string :=
  ["timeout"; "waitFor"; "selector"; "script"].

(** [render] of src/response.mjs, the object it hands on: the four
    properties copied from [options], then those that are [undefined]
    deleted. *)
Definition renderOptions (options : Object) : Object :=
  filter (fun kv => negb (is_undefined (snd kv)))
    (map (fun k => (k, get options k)) option_keys).

End Js.

(** ** The command-line front ends, where they call [render] *)

Module Cli.

(** [fetchUrl] and [main]: the object passed to [response.render], built
    from the parsed options by one guarded assignment per option. *)
Definition renderOptions (options : Js.Object) : Js.Object :=
  filter (fun kv => Js.truthy (snd kv))
    (map (fun k => (k, Js.get options k)) Js.option_keys).

(** [isHtmlResponse]: the header value is [null] ([None]) when the header
    is absent. *)
Definition isHtmlResponse (contentType : option string) : bool :=
  match contentType with
  | None => false
  | Some ct =>
      if negb (Dispatcher.truthy ct) then false
      else Str.includes "text/html" ct
           || Str.includes "application/xhtml" ct
  end.

End Cli.

(** ** Shapes of states and logs, used in the statements *)

Module Shape.

(** [options.timeout || 5000] is [t]: the timeout given when it is not
    0, and 5000 when none or 0 is given. *)
Definition effective_timeout (options : Dispatcher.Options) (t : Z)
  : Prop :=
  (Dispatcher.timeout options = Some t /\ t <> 0%Z)
  \/ ((Dispatcher.timeout options = None
       \/ Dispatcher.timeout options = Some 0%Z) /\ t = 5000%Z).

(** The code of the exit that the worker pairs with a message: 0 with a
    success message, 1 with a failure message. *)
Definition exit_status (m : Dispatcher.Message) : Z :=
  if Dispatcher.success m then 0%Z else 1%Z.

(** The invariant of a worker: the readiness message comes first and
    once; while the worker is alive every outcome sent has its callback
    waiting, with code 0 for a success and 1 for a failure; a worker
    that has exited did so from the callback of its first outcome. *)
Definition worker_inv (p : Worker.Process) : Prop :=
  exists outs,
    Worker.sent p = Worker.ready_message :: outs
    /\ Forall (fun m => Dispatcher.ready m = false) outs
    /\ match Worker.exit_code p with
       | None => Worker.callbacks p = map exit_status outs
       | Some code => exists m rest, outs = m :: rest /\ code = exit_status m
       end.

(** [child.kill()] is called by the timer only, on a call it then
    rejects. *)
Definition killed_by_timeout (options : Dispatcher.Options)
    (c : Dispatcher.Child) : Prop :=
  Dispatcher.killed c = true ->
  Dispatcher.resolved c = true
  /\ Dispatcher.settled c
     = [Dispatcher.Reject (Dispatcher.timeout_message options)].

(** A poll of the readiness flag. *)
Definition ready_poll (e : Native.Eval) : Prop :=
  Native.purpose e = Native.PReady
  /\ Native.source e = Native.ready_script.

(** Until the page is found loaded nothing but the flag was polled, and no
    HTML was recorded. *)
Definition only_polled_ready (st : Native.Loop) : Prop :=
  Native.loaded st = false ->
  Forall ready_poll (Native.evals st) /\ Native.html st = None.

End Shape.

(** ** More sample sessions *)

Module MoreSamples.

(** A page that loads at once, on which the query for [#app] fails to
    evaluate, and whose document is a lone [html] element. *)
Definition failing_query_page : Native.WebView :=
  fun _ src =>
    if String.eqb src Native.ready_script then Ok "true"
    else if String.eqb src (Native.wait_check_script "#app")
         then Err "SyntaxError"
    else Ok (Str.of_char Str.dquote ++ "<html></html>"
             ++ Str.of_char Str.dquote).

Definition whole_document : Native.RenderOptions :=
  {| Native.timeout := None; Native.wait_for := Some "#app";
     Native.selector := None; Native.script := None |}.

(** A paragraph with a quoted attribute and a line feed. *)
Definition paragraph : string :=
  "<p class=" ++ Str.of_char Str.dquote ++ "a" ++ Str.of_char Str.dquote
    ++ ">x" ++ Str.of_char Str.newline ++ "</p>".

End MoreSamples.

(** ** The page behind the WebView *)

(** The scripts of phases 4, 5 and 7 are text handed to the WebView.
    What they answer is decided by the page and by the meaning of that
    text; this module gives the fragment of JavaScript they are written
    in, read from the text itself: a scanner, a parser, an evaluator
    over a page, and the serialization of the value by the bridge. *)

Module MiniJs.

(** *** Tokens *)

Inductive Token : Type :=
| TName (name : string)
| TString (value : string)
| TArrow
| TSym (c : ascii).

Definition quote : ascii := ascii_of_nat 39.
Definition carriage_return : ascii := ascii_of_nat 13.

Definition between (lo hi : nat) (c : ascii) : bool :=
  (lo <=? nat_of_ascii c)%nat && (nat_of_ascii c <=? hi)%nat.

Definition is_space (c : ascii) : bool :=
  Ascii.eqb c " " || Ascii.eqb c (ascii_of_nat 9)
  || Ascii.eqb c Str.newline || Ascii.eqb c carriage_return.

Definition is_digit (c : ascii) : bool := between 48 57 c.

Definition is_name_start (c : ascii) : bool :=
  between 65 90 c || between 97 122 c || Ascii.eqb c "_" || Ascii.eqb c "$".

Definition is_name_char (c : ascii) : bool :=
  is_name_start c || is_digit c.

Definition is_symbol (c : ascii) : bool :=
  existsb (Ascii.eqb c) ["("; ")"; "{"; "}"; "."; ";"; "?"; ":"; "!"]%char.

(** What a backslash followed by [c] stands for inside a string literal;
    [None] for the escapes left out (octal, hexadecimal and Unicode
    ones, and a carriage return). *)
Definition escape_char (c : ascii) : option string :=
  if Ascii.eqb c "n" then Some (Str.of_char Str.newline)
  else if Ascii.eqb c "t" then Some (Str.of_char (ascii_of_nat 9))
  else if Ascii.eqb c "r" then Some (Str.of_char carriage_return)
  else if Ascii.eqb c "b" then Some (Str.of_char (ascii_of_nat 8))
  else if Ascii.eqb c "f" then Some (Str.of_char (ascii_of_nat 12))
  else if Ascii.eqb c "v" then Some (Str.of_char (ascii_of_nat 11))
  else if Ascii.eqb c Str.newline then Some EmptyString
  else if is_digit c || Ascii.eqb c "x" || Ascii.eqb c "u"
          || Ascii.eqb c carriage_return
       then None
  else Some (Str.of_char c).

(** Where the scanner is: between tokens, inside a name, after an
    equals sign, inside a single-quoted string literal, or after a
    backslash in one. *)
Inductive Mode : Type :=
| Plain
| Name (read : string)
| Equals
| Quoted (read : string)
| Escaped (read : string).

Definition Scanner : Type := (Mode * list Token)%type.

Definition plain_step (c : ascii) (out : list Token) : option Scanner :=
  if is_space c then Some (Plain, out)
  else if Ascii.eqb c quote then Some (Quoted EmptyString, out)
  else if Ascii.eqb c "=" then Some (Equals, out)
  else if is_name_start c then Some (Name (Str.of_char c), out)
  else if is_symbol c then Some (Plain, (out ++ [TSym c])%list)
  else None.

(** One character; [None] when the text leaves the fragment. *)
Definition step (st : Scanner) (c : ascii) : option Scanner :=
  let (mode, out) := st in
  match mode with
  | Plain => plain_step c out
  | Name read =>
      if is_name_char c then Some (Name (read ++ Str.of_char c), out)
      else plain_step c (out ++ [TName read])%list
  | Equals =>
      if Ascii.eqb c ">" then Some (Plain, (out ++ [TArrow])%list)
      else plain_step c (out ++ [TSym "="])%list
  | Quoted read =>
      if Ascii.eqb c quote then Some (Plain, (out ++ [TString read])%list)
      else if Ascii.eqb c Str.backslash then Some (Escaped read, out)
      else if Ascii.eqb c Str.newline || Ascii.eqb c carriage_return
           then None
      else Some (Quoted (read ++ Str.of_char c), out)
  | Escaped read =>
      match escape_char c with
      | Some s => Some (Quoted (read ++ s), out)
      | None => None
      end
  end.

Fixpoint feed (st : Scanner) (s : string) : option Scanner :=
  match s with
  | EmptyString => Some st
  | String c rest =>
      match step st c with
      | Some st' => feed st' rest
      | None => None
      end
  end.

Definition lex (s : string) : option (list Token) :=
  match feed (Plain, []) s with
  | Some (Plain, out) => Some out
  | Some (Name read, out) => Some (out ++ [TName read])%list
  | Some (Equals, out) => Some (out ++ [TSym "="])%list
  | _ => None
  end.

(** *** Expressions *)

Inductive Expr : Type :=
| Literal (value : string)
| Var (name : string)
| Member (object : Expr) (name : string)
| Call0 (callee : Expr)
| Call1 (callee : Expr) (argument : Expr)
| Not (e : Expr)
| Cond (test : Expr) (consequent : Expr) (alternate : Expr)
| Arrow (name : string) (init : Expr) (result : Expr).

Definition bind {A B : Type} (a : option A) (f : A -> option B)
  : option B :=
  match a with Some x => f x | None => None end.

Local Notation "'let*' x ':=' a 'in' b" := (bind a (fun x => b))
  (at level 10, x pattern, b at level 200).

Definition expect_sym (c : ascii) (ts : list Token) : option (list Token) :=
  match ts with
  | TSym d :: rest => if Ascii.eqb d c then Some rest else None
  | _ => None
  end.

Definition expect_name (x : string) (ts : list Token)
  : option (list Token) :=
  match ts with
  | TName y :: rest => if String.eqb y x then Some rest else None
  | _ => None
  end.

Definition expect_arrow (ts : list Token) : option (list Token) :=
  match ts with
  | TArrow :: rest => Some rest
  | _ => None
  end.

Definition any_name (ts : list Token) : option (string * list Token) :=
  match ts with
  | TName y :: rest => Some (y, rest)
  | _ => None
  end.

Fixpoint expect_syms (cs : list ascii) (ts : list Token)
  : option (list Token) :=
  match cs with
  | [] => Some ts
  | c :: cs' => let* rest := expect_sym c ts in expect_syms cs' rest
  end.

Definition keyword (x : string) : bool :=
  String.eqb x "const" || String.eqb x "return".

(** The grammar: a conditional over unary expressions; [!] before a
    postfix expression; member accesses and calls after a primary one; a
    primary expression is a name, a string literal, an expression in
    parentheses, or an arrow function without parameters whose body
    declares one constant and returns.  [fuel] bounds the nesting.  An
    arrow function is evaluated where it is called at once, a method
    where it is called on its object; functions are not values here. *)
Fixpoint parse_expr (fuel : nat) (ts : list Token) {struct fuel}
  : option (Expr * list Token) :=
  match fuel with
  | O => None
  | S fuel' =>
      let* (test, rest) := parse_unary fuel' ts in
      match expect_sym "?" rest with
      | Some rest1 =>
          let* (consequent, rest2) := parse_expr fuel' rest1 in
          let* rest3 := expect_sym ":" rest2 in
          let* (alternate, rest4) := parse_expr fuel' rest3 in
          Some (Cond test consequent alternate, rest4)
      | None => Some (test, rest)
      end
  end
with parse_unary (fuel : nat) (ts : list Token) {struct fuel}
  : option (Expr * list Token) :=
  match fuel with
  | O => None
  | S fuel' =>
      match expect_sym "!" ts with
      | Some rest =>
          let* (e, rest') := parse_unary fuel' rest in Some (Not e, rest')
      | None =>
          let* (e, rest) := parse_primary fuel' ts in
          parse_postfix fuel' e rest
      end
  end
with parse_primary (fuel : nat) (ts : list Token) {struct fuel}
  : option (Expr * list Token) :=
  match fuel with
  | O => None
  | S fuel' =>
      match ts with
      | TString s :: rest => Some (Literal s, rest)
      | TName x :: rest => if keyword x then None else Some (Var x, rest)
      | TSym c :: rest =>
          if Ascii.eqb c "(" then
            match (let* rest1 := expect_sym ")" rest in
                   let* rest2 := expect_arrow rest1 in
                   expect_sym "{" rest2) with
            | Some body =>
                let* body1 := expect_name "const" body in
                let* (x, body2) := any_name body1 in
                let* body3 := expect_sym "=" body2 in
                let* (init, body4) := parse_expr fuel' body3 in
                let* body5 := expect_sym ";" body4 in
                let* body6 := expect_name "return" body5 in
                let* (result, body7) := parse_expr fuel' body6 in
                let* rest' := expect_syms [";"; "}"]%char body7 in
                Some (Arrow x init result, rest')
            | None =>
                let* (e, rest1) := parse_expr fuel' rest in
                let* rest2 := expect_sym ")" rest1 in
                Some (e, rest2)
            end
          else None
      | TArrow :: _ | [] => None
      end
  end
with parse_postfix (fuel : nat) (e : Expr) (ts : list Token) {struct fuel}
  : option (Expr * list Token) :=
  match fuel with
  | O => None
  | S fuel' =>
      match expect_sym "." ts with
      | Some rest =>
          let* (name, rest') := any_name rest in
          parse_postfix fuel' (Member e name) rest'
      | None =>
          match expect_sym "(" ts with
          | Some rest =>
              match expect_sym ")" rest with
              | Some rest' => parse_postfix fuel' (Call0 e) rest'
              | None =>
                  let* (argument, rest1) := parse_expr fuel' rest in
                  let* rest2 := expect_sym ")" rest1 in
                  parse_postfix fuel' (Call1 e argument) rest2
              end
          | None => Some (e, ts)
          end
      end
  end.

(** The script text as one expression. *)
Definition parse (src : string) : option Expr :=
  let* ts := lex src in
  match parse_expr (4 * List.length ts + 4) ts with
  | Some (e, []) => Some e
  | _ => None
  end.

(** *** Values and the page *)

Inductive Value : Type :=
| Undefined
| Null
| Boolean (b : bool)
| Text (s : string)
| Element (outerHTML : string)
| Document
| Window.

(** The page at one moment: the readiness flag set by the
    initialization script, the document's [querySelector] (the
    [outerHTML] of the first element the selector matches, [None] when
    it matches none, an error when it is not a valid selector) and the
    [outerHTML] of the document element. *)
Record Page : Type := {
  renderReady : bool;
  querySelector : string -> Result (option string) string;
  documentElement : string
}.

Definition truthy (v : Value) : bool :=
  match v with
  | Undefined | Null => false
  | Boolean b => b
  | Text s => match s with EmptyString => false | String _ _ => true end
  | Element _ | Document | Window => true
  end.

Fixpoint lookup (env : list (string * Value)) (x : string) : option Value :=
  match env with
  | [] => None
  | (y, v) :: rest => if String.eqb y x then Some v else lookup rest x
  end.

(** An evaluation ends with a value or with an exception ([Err]), or
    leaves the fragment ([None]). *)
Definition Outcome : Type := option (Result Value string).

Definition and_then (r : Outcome) (f : Value -> Outcome) : Outcome :=
  match r with
  | Some (Ok v) => f v
  | Some (Err m) => Some (Err m)
  | None => None
  end.

(** The properties read by the scripts; reading a property of [null]
    or [undefined] throws. *)
Definition member (page : Page) (v : Value) (name : string) : Outcome :=
  match v with
  | Document =>
      if String.eqb name "documentElement"
      then Some (Ok (Element (documentElement page)))
      else None
  | Element h =>
      if String.eqb name "outerHTML" then Some (Ok (Text h)) else None
  | Window =>
      if String.eqb name "__renderReady"
      then Some (Ok (Boolean (renderReady page)))
      else None
  | Undefined | Null => Some (Err "TypeError")
  | _ => None
  end.

(** The one method called by the scripts: [document.querySelector]. *)
Definition method (page : Page) (v : Value) (name : string) (a : Value)
  : Outcome :=
  match v, a with
  | Document, Text sel =>
      if String.eqb name "querySelector" then
        match querySelector page sel with
        | Ok (Some outer) => Some (Ok (Element outer))
        | Ok None => Some (Ok Null)
        | Err m => Some (Err m)
        end
      else None
  | _, _ => None
  end.

Fixpoint eval (page : Page) (env : list (string * Value)) (e : Expr)
  : Outcome :=
  match e with
  | Literal s => Some (Ok (Text s))
  | Var x =>
      match lookup env x with
      | Some v => Some (Ok v)
      | None =>
          if String.eqb x "document" then Some (Ok Document)
          else if String.eqb x "window" then Some (Ok Window)
          else None
      end
  | Member object name =>
      and_then (eval page env object) (fun v => member page v name)
  | Call1 callee argument =>
      match callee with
      | Member object name =>
          and_then (eval page env object) (fun v =>
          and_then (eval page env argument) (fun a =>
            method page v name a))
      | _ => None
      end
  | Call0 callee =>
      match callee with
      | Arrow x init result =>
          and_then (eval page env init) (fun v =>
            eval page ((x, v) :: env) result)
      | _ => None
      end
  | Not e' =>
      and_then (eval page env e') (fun v =>
        Some (Ok (Boolean (negb (truthy v)))))
  | Cond test consequent alternate =>
      and_then (eval page env test) (fun v =>
        if truthy v then eval page env consequent
        else eval page env alternate)
  | Arrow _ _ _ => None
  end.

(** *** The answer of the bridge: the value as JSON text *)

Definition hex_digit (n : nat) : ascii :=
  match String.get n "0123456789abcdef" with
  | Some c => c
  | None => "0"%char
  end.

Definition json_char (c : ascii) : string :=
  if Ascii.eqb c Str.dquote then String Str.backslash (Str.of_char Str.dquote)
  else if Ascii.eqb c Str.backslash
       then String Str.backslash (Str.of_char Str.backslash)
  else if Ascii.eqb c Str.newline then String Str.backslash "n"
  else if Ascii.eqb c carriage_return then String Str.backslash "r"
  else if Ascii.eqb c (ascii_of_nat 9) then String Str.backslash "t"
  else if Ascii.eqb c (ascii_of_nat 8) then String Str.backslash "b"
  else if Ascii.eqb c (ascii_of_nat 12) then String Str.backslash "f"
  else if (nat_of_ascii c <? 32)%nat
       then String Str.backslash "u00"
            ++ String (hex_digit (nat_of_ascii c / 16))
                 (Str.of_char (hex_digit (nat_of_ascii c mod 16)))
  else Str.of_char c.

Fixpoint json_chars (s : string) : string :=
  match s with
  | EmptyString => EmptyString
  | String c rest => json_char c ++ json_chars rest
  end.

Definition json_string (s : string) : string :=
  String Str.dquote (json_chars s ++ Str.of_char Str.dquote).

Definition serialize (v : Value) : option string :=
  match v with
  | Boolean true => Some "true"
  | Boolean false => Some "false"
  | Text s => Some (json_string s)
  | Null => Some "null"
  | _ => None
  end.

(** What evaluating the script text on the page answers. *)
Definition run (page : Page) (src : string) : option Native.EvalResult :=
  let* e := parse src in
  match eval page [] e with
  | Some (Ok v) => let* text := serialize v in Some (Ok text)
  | Some (Err m) => Some (Err m)
  | None => None
  end.

(** A WebView showing the page [pages n] at the [n]-th evaluation; the
    scripts outside the fragment are answered by [other]. *)
Definition browser (pages : nat -> Page) (other : Native.WebView)
  : Native.WebView :=
  fun n src =>
    match run (pages n) src with
    | Some r => r
    | None => other n src
    end.

(** A selector that the quoting of phases 5 and 7 spells faithfully: no
    backslash, no line feed, no carriage return. *)
Fixpoint plain (s : string) : bool :=
  match s with
  | EmptyString => true
  | String c rest =>
      negb (Ascii.eqb c Str.backslash) && negb (Ascii.eqb c Str.newline)
      && negb (Ascii.eqb c carriage_return) && plain rest
  end.

End MiniJs.

(** ** Sample pages *)

(** Of the [querySelector] of a page, the samples give the answers to
    the selectors that the sessions below put to it. *)

Module Pages.

(** A page that is ready at once, shows [#app] from the fourth
    evaluation on, and holds no other element. *)
Definition app_dom (n : nat) : MiniJs.Page :=
  {| MiniJs.renderReady := true;
     MiniJs.querySelector := fun sel =>
       if String.eqb sel "#app"
       then Ok (if Nat.ltb n 3 then None else Some "<div id=app>x</div>")
       else Ok None;
     MiniJs.documentElement := "<html><div id=app>x</div></html>" |}.

(** The scripts outside the fragment evaluate to [null]. *)
Definition quiet : Native.WebView := fun _ _ => Ok "null".

(** A page that is ready at once and holds no element beside the
    document element; [querySelector] throws on the two texts that are
    not valid selectors. *)
Definition strict_dom (n : nat) : MiniJs.Page :=
  {| MiniJs.renderReady := true;
     MiniJs.querySelector := fun sel =>
       if String.eqb sel "div["
       then Err "SyntaxError: 'div[' is not a valid selector"
       else if String.eqb sel ".md:flex"
       then Err "SyntaxError: '.md:flex' is not a valid selector"
       else if String.eqb sel "html" then Ok (Some "<html></html>")
       else Ok None;
     MiniJs.documentElement := "<html></html>" |}.

(** A page that is ready at once and holds one paragraph, of id [a] and
    class [b]. *)
Definition card_dom (n : nat) : MiniJs.Page :=
  {| MiniJs.renderReady := true;
     MiniJs.querySelector := fun sel =>
       if String.eqb sel "#a.b" || String.eqb sel "#a"
          || String.eqb sel ".b" || String.eqb sel "p"
       then Ok (Some "<p id=a class=b>x</p>")
       else Ok None;
     MiniJs.documentElement := "<html><p id=a class=b>x</p></html>" |}.

End Pages.

(** * Properties *)

(** ** The dispatcher settles each call once *)

Section DispatcherFacts.

Import Dispatcher.

Variable url : string.
Variable options : Options.

Lemma settled_once_forked : settled_once forked.
Proof. unfold settled_once; simpl; auto. Qed.

Lemma settle_once (s : Settlement) (c : Child) :
  settled_once c -> resolved c = false -> settled_once (settle s c).
Proof.
  unfold settled_once; intros H Hr; rewrite Hr in H; simpl.
  destruct H as [_ ->]; reflexivity.
Qed.

Lemma handle_settled_once (c : Child) (e : Event) :
  settled_once c -> settled_once (handle url options c e).
Proof.
  intros H.
  destruct e as [m | m | code | ]; simpl.
  - unfold on_message.
    destruct (ready m); [exact H |].
    destruct (success m);
      [| destruct (truthy (error m)); [| exact H]];
      destruct (resolved c) eqn:Hr; simpl; trivial;
      now apply settle_once.
  - unfold on_error.
    destruct (resolved c) eqn:Hr; simpl; trivial; now apply settle_once.
  - unfold on_exit.
    destruct (resolved c) eqn:Hr; simpl; trivial; now apply settle_once.
  - unfold on_kill_timeout.
    destruct (killTimeout c) eqn:Hk; trivial.
    unfold settled_once in *.
    destruct (resolved c) eqn:Hr; simpl; [rewrite Hr; exact H |].
    destruct H as [_ ->]; reflexivity.
Qed.

Lemma fold_handle_settled_once (events : list Event) :
  forall c, settled_once c ->
            settled_once (fold_left (handle url options) events c).
Proof.
  induction events as [| e events IH]; intros c H; simpl; trivial.
  apply IH, handle_settled_once, H.
Qed.

Lemma deliver_settled_once (events : list Event) :
  settled_once (deliver url options events).
Proof. apply fold_handle_settled_once, settled_once_forked. Qed.

(** Once [resolved] is set no handler changes the settlements. *)
Lemma handle_resolved (c : Child) (e : Event) :
  resolved c = true ->
  resolved (handle url options c e) = true
  /\ settled (handle url options c e) = settled c.
Proof.
  intros Hr.
  destruct e as [m | m | code | ]; simpl.
  - unfold on_message.
    destruct (ready m); [simpl; auto |].
    destruct (success m); [rewrite Hr; simpl; auto |].
    destruct (truthy (error m)); rewrite ?Hr; simpl; auto.
  - unfold on_error; rewrite Hr; simpl; auto.
  - unfold on_exit; rewrite Hr; simpl; auto.
  - unfold on_kill_timeout.
    destruct (killTimeout c); rewrite ?Hr; simpl; auto.
Qed.

Lemma fold_handle_resolved (events : list Event) :
  forall c, resolved c = true ->
            resolved (fold_left (handle url options) events c) = true
            /\ settled (fold_left (handle url options) events c) = settled c.
Proof.
  induction events as [| e events IH]; intros c Hr; simpl; auto.
  destruct (handle_resolved c e Hr) as [Hr' Hs].
  destruct (IH _ Hr') as [Hr'' Hs'].
  split; [exact Hr'' | now rewrite Hs'].
Qed.

Lemma deliver_app (events more : list Event) :
  deliver url options (events ++ more)
  = fold_left (handle url options) more (deliver url options events).
Proof. unfold deliver; apply fold_left_app. Qed.

(** Once the pending timer has had its turn the call is settled. *)
Lemma on_kill_timeout_settled (c : Child) :
  settled_once c ->
  List.length (settled (on_kill_timeout options c)) = 1.
Proof.
  unfold settled_once, on_kill_timeout; intros H.
  destruct (resolved c) eqn:Hr.
  - destruct (killTimeout c); simpl; rewrite ?Hr; simpl; exact H.
  - destruct H as [Hk Hs]; rewrite Hk; simpl; rewrite Hs; reflexivity.
Qed.

End DispatcherFacts.

Section DispatcherClaims.

Import Dispatcher.

(** C1. Every call of [render] is settled exactly once.  On the
    child-process path no sequence of IPC events makes the handlers call
    [resolve] or [reject] twice, and once the events were delivered and
    the kill timer, unless cleared, has run, exactly one call was made;
    on the direct path the settlement is the one of the native promise.
    A result message decides the outcome whatever follows it: an error,
    an exit, the timer or further messages change nothing. *)
Theorem C1_render_settles_exactly_once
    (renderCount : N) (self : RenderableResponse) (options : Options)
    (native : Settlement) (events more : list Event)
    (page : string) (a : ascii) (err : string) :
  List.length (settled (deliver (url self) options events)) <= 1
  /\ List.length
       (render_settlements (snd (render renderCount self options))
          native events) = 1
  /\ settled
       (renderInChildProcess (url self) options
          (OnMessage Worker.ready_message
             :: OnMessage (Worker.success_message page) :: more))
     = [Resolve page]
  /\ settled
       (renderInChildProcess (url self) options
          (OnMessage Worker.ready_message
             :: OnMessage (Worker.failure_message (String a err)) :: more))
     = [Reject (String a err)].
Proof.
  split; [| split; [| split]].
  - pose proof (deliver_settled_once (url self) options events) as H.
    unfold settled_once in H.
    destruct (resolved (deliver (url self) options events)).
    + rewrite H; constructor.
    + destruct H as [_ ->]; simpl; lia.
  - unfold render; simpl.
    destruct (renderCount + 1 =? 1)%N; simpl; [reflexivity |].
    apply on_kill_timeout_settled, deliver_settled_once.
  - unfold renderInChildProcess, deliver; simpl.
    match goal with
    | |- context [fold_left _ more ?c] =>
        destruct (fold_handle_resolved (url self) options more c eq_refl)
          as [Hr Hs]
    end.
    destruct (handle_resolved (url self) options _ OnKillTimeout Hr)
      as [_ Hk].
    simpl in Hk; rewrite Hk, Hs; reflexivity.
  - unfold renderInChildProcess, deliver; simpl.
    match goal with
    | |- context [fold_left _ more ?c] =>
        destruct (fold_handle_resolved (url self) options more c eq_refl)
          as [Hr Hs]
    end.
    destruct (handle_resolved (url self) options _ OnKillTimeout Hr)
      as [_ Hk].
    simpl in Hk; rewrite Hk, Hs; reflexivity.
Qed.

(** The counter after a sequence of calls, and the path of each call, for
    any value the counter starts from. *)
Lemma render_calls_from (calls : list (RenderableResponse * Options)) :
  forall renderCount : N,
    fst (render_calls renderCount calls)
    = (renderCount + N.of_nat (List.length calls))%N
    /\ List.length (snd (render_calls renderCount calls))
       = List.length calls
    /\ forall i self options,
        nth_error calls i = Some (self, options) ->
        nth_error (snd (render_calls renderCount calls)) i
        = Some (if (renderCount + N.of_nat i =? 0)%N
                then Direct (url self) options
                else ChildProcess (url self) options).
Proof.
  induction calls as [| [self0 options0] rest IH]; intros renderCount.
  - simpl; repeat split; [lia |].
    intros [| i] self options H; discriminate H.
  - cbn [render_calls render].
    destruct (render_calls (renderCount + 1) rest) as [n paths] eqn:E.
    destruct (IH (renderCount + 1)%N) as (Hn & Hl & Hp).
    rewrite E in Hn, Hl, Hp; cbn [fst snd] in *.
    repeat split.
    + rewrite Hn; cbn [List.length]; lia.
    + cbn [List.length]; now rewrite Hl.
    + intros [| i] self options H; cbn [nth_error] in *.
      * injection H as -> ->.
        replace (renderCount + N.of_nat 0)%N with renderCount by lia.
        destruct (N.eqb_spec (renderCount + 1) 1), (N.eqb_spec renderCount 0);
          (reflexivity || lia).
      * rewrite (Hp i self options H).
        destruct (N.eqb_spec (renderCount + 1 + N.of_nat i) 0),
                 (N.eqb_spec (renderCount + N.of_nat (S i)) 0);
          (reflexivity || lia).
Qed.

(** C2. In a process whose counter starts at 0, the first call of
    [render] takes the direct native path and every later call, on
    whichever [RenderableResponse] it is made, goes to a child process;
    the counter is incremented by each call. *)
Theorem C2_first_call_direct_later_calls_child_process
    (calls : list (RenderableResponse * Options)) :
  fst (render_calls 0 calls) = N.of_nat (List.length calls)
  /\ List.length (snd (render_calls 0 calls)) = List.length calls
  /\ forall i self options,
      nth_error calls i = Some (self, options) ->
      nth_error (snd (render_calls 0 calls)) i
      = Some (match i with
              | O => Direct (url self) options
              | S _ => ChildProcess (url self) options
              end).
Proof.
  destruct (render_calls_from calls 0%N) as (Hn & Hl & Hp).
  repeat split; trivial.
  intros i self options H.
  rewrite (Hp i self options H).
  destruct i; [reflexivity |].
  destruct (N.eqb_spec (0 + N.of_nat (S i)) 0); [lia | reflexivity].
Qed.

Lemma C2_witness :
  snd (render_calls 0
         [ ({| url := "http://a.test/" |}, no_options);
           ({| url := "http://b.test/" |}, no_options);
           ({| url := "http://a.test/" |}, no_options) ])
  = [ Direct "http://a.test/" no_options;
      ChildProcess "http://b.test/" no_options;
      ChildProcess "http://a.test/" no_options ]
  /\ nth_error
       (snd (render_calls 0
               [ ({| url := "http://a.test/" |}, no_options);
                 ({| url := "http://b.test/" |}, no_options) ])) 1
     = Some (ChildProcess "http://b.test/" no_options).
Proof.
  split; [reflexivity |].
  exact (proj2 (proj2 (C2_first_call_direct_later_calls_child_process
                         [ ({| url := "http://a.test/" |}, no_options);
                           ({| url := "http://b.test/" |}, no_options) ]))
           1 {| url := "http://b.test/" |} no_options eq_refl).
Defined.

End DispatcherClaims.

Section DispatcherTimeoutAndExit.

Import Dispatcher.

Variable url : string.
Variable options : Options.

Lemma timeout_message_is_not_exit_message (code : option Z) :
  timeout_message options <> exit_message code.
Proof.
  unfold timeout_message, exit_message.
  destruct (code_is_not_zero code); simpl; discriminate.
Qed.

(** C8, as the code has it. When the child exits before the call was
    settled, the call is rejected with the message
    [Worker process exited with code N] for an exit code N other than 0,
    and with [Worker exited without sending result] for the exit code
    0; nothing else is settled afterwards. *)
Theorem C8_exit_before_settlement
    (events : list Event) (n : Z) :
  resolved (deliver url options events) = false ->
  (n <> 0%Z ->
   settled (renderInChildProcess url options
              (events ++ [OnExit (Some n)]))
   = [Reject ("Worker process exited with code " ++ Str.of_Z n)])
  /\ settled (renderInChildProcess url options
                (events ++ [OnExit (Some 0%Z)]))
     = [Reject "Worker exited without sending result"].
Proof.
  intros Hr.
  pose proof (deliver_settled_once url options events) as H.
  unfold settled_once in H; rewrite Hr in H; destruct H as [_ Hs].
  assert (Hexit : forall code,
             settled (renderInChildProcess url options
                        (events ++ [OnExit code]))
             = [Reject (exit_message code)]).
  { intros code.
    unfold renderInChildProcess.
    rewrite deliver_app; simpl.
    unfold on_exit at 1; rewrite Hr; simpl.
    rewrite Hs; reflexivity. }
  split.
  - intros Hn; rewrite Hexit.
    unfold exit_message; simpl.
    destruct (Z.eqb_spec n 0); [contradiction | reflexivity].
  - rewrite Hexit; reflexivity.
Qed.

End DispatcherTimeoutAndExit.

(** C6, at a render timeout of 2147481648 ms.  The delay handed to
    [setTimeout] is then 2147483648, more than a timer of Node holds, so
    the timer is set to 1 ms: the dispatcher's own timeout is not the
    render timeout plus 2000 ms, it is shorter than the render timeout.
    When it fires on the call, which nothing has settled yet (the worker
    has sent its readiness message, or nothing at all), the worker is
    killed and the call rejected with the timeout error.  With a
    render timeout one millisecond shorter the delay is the render
    timeout plus 2000 ms. *)
Theorem C6_kill_timer_overflows_for_long_timeout :
  Dispatcher.render_timeout Sample.long_timeout = 2147481648%Z
  /\ Dispatcher.kill_delay Sample.long_timeout = 1%Z
  /\ (Dispatcher.kill_delay Sample.long_timeout
      < Dispatcher.render_timeout Sample.long_timeout)%Z
  /\ Dispatcher.killed
       (Dispatcher.renderInChildProcess "http://a.test/" Sample.long_timeout
          [Dispatcher.OnMessage Worker.ready_message])
     = true
  /\ Dispatcher.settled
       (Dispatcher.renderInChildProcess "http://a.test/" Sample.long_timeout
          [Dispatcher.OnMessage Worker.ready_message])
     = [Dispatcher.Reject "Render timeout after 2147481648ms"]
  /\ Dispatcher.settled
       (Dispatcher.renderInChildProcess "http://a.test/" Sample.long_timeout
          [])
     = [Dispatcher.Reject "Render timeout after 2147481648ms"]
  /\ Dispatcher.kill_delay
       {| Dispatcher.timeout := Some 2147481647%Z;
          Dispatcher.waitFor := None; Dispatcher.selector := None;
          Dispatcher.script := None |}
     = (2147481647 + 2000)%Z.
Proof. repeat split; vm_compute; reflexivity. Qed.

Lemma C8_witness :
  Dispatcher.settled
    (Dispatcher.renderInChildProcess "http://a.test/" Dispatcher.no_options
       ([Dispatcher.OnMessage Worker.ready_message]
          ++ [Dispatcher.OnExit (Some 3%Z)]))
  = [Dispatcher.Reject "Worker process exited with code 3"].
Proof.
  refine (proj1 (C8_exit_before_settlement "http://a.test/"
                   Dispatcher.no_options
                   [Dispatcher.OnMessage Worker.ready_message] 3 eq_refl) _).
  discriminate.
Defined.

(** C8, as the specification words it, fails: a child that exits with
    code 1 (or 0) before sending a result does not make the call fail
    with the lower-case messages quoted there. *)
Lemma C8_counterexample :
  Dispatcher.settled
    (Dispatcher.renderInChildProcess "http://a.test/" Dispatcher.no_options
       [Dispatcher.OnMessage Worker.ready_message;
        Dispatcher.OnExit (Some 1%Z)])
  <> [Dispatcher.Reject "worker exited with code 1"]
  /\ Dispatcher.settled
       (Dispatcher.renderInChildProcess "http://a.test/"
          Dispatcher.no_options
          [Dispatcher.OnMessage Worker.ready_message;
           Dispatcher.OnExit (Some 0%Z)])
     <> [Dispatcher.Reject "worker exited without sending result"].
Proof. split; vm_compute; discriminate. Qed.

(** C7, on the dispatcher's timeout path. The call is rejected with the
    message [Render timeout after 5000ms], in which neither [Timeout] nor
    [RenderTimeoutError] occurs, while the reason the native layer gives
    for a timeout contains both. *)
Theorem C7_dispatcher_timeout_message_lacks_tag :
  Dispatcher.settled
    (Dispatcher.renderInChildProcess "http://a.test/" Dispatcher.no_options
       [Dispatcher.OnMessage Worker.ready_message])
  = [Dispatcher.Reject "Render timeout after 5000ms"]
  /\ Str.includes "Timeout" "Render timeout after 5000ms" = false
  /\ Str.includes "RenderTimeoutError" "Render timeout after 5000ms" = false
  /\ Str.includes "Timeout" Native.timeout_reason = true
  /\ Str.includes "RenderTimeoutError" Native.timeout_reason = true.
Proof. repeat split; vm_compute; reflexivity. Qed.

(** ** The worker *)

Section WorkerFacts.

Import Worker.

Variable renderPage : string -> Dispatcher.Options -> Result string JsError.

Local Abbreviation handle := (Worker.handle renderPage).
Local Abbreviation run := (Worker.run renderPage).
Local Abbreviation status := Shape.exit_status.
Local Abbreviation worker_inv := Shape.worker_inv.

Lemma handle_exited (p : Process) (e : Event) (code : Z) :
  exit_code p = Some code -> handle p e = p.
Proof. intros H; unfold Worker.handle; now rewrite H. Qed.

Lemma fold_handle_exited (events : list Event) :
  forall p code,
    exit_code p = Some code ->
    fold_left handle events p = p.
Proof.
  induction events as [| e events IH]; intros p code H; simpl; trivial.
  rewrite (handle_exited p e code H); eapply IH, H.
Qed.

Lemma run_app (events more : list Event) :
  run (events ++ more) = fold_left handle more (run events).
Proof. unfold Worker.run; apply fold_left_app. Qed.

Lemma run_snoc (events : list Event) (e : Event) :
  run (events ++ [e]) = handle (run events) e.
Proof. rewrite run_app; reflexivity. Qed.

(** A worker that is alive after an event was alive before it. *)
Lemma handle_alive (p : Process) (e : Event) :
  exit_code (handle p e) = None -> exit_code p = None.
Proof.
  destruct (exit_code p) as [code |] eqn:H; trivial.
  rewrite (handle_exited p e code H), H; discriminate.
Qed.

(** What a request and a fault add, in a worker that is alive. *)
Lemma handle_incoming (p : Process) (request : Request) :
  exit_code p = None ->
  handle p (Incoming request)
  = match renderPage (url request) (options_or_empty request) with
    | Ok page => send_then_exit (success_message page) 0 p
    | Err error => send_then_exit (failure_message (error_text error)) 1 p
    end.
Proof. intros H; unfold Worker.handle; rewrite H; reflexivity. Qed.

Lemma handle_fault (p : Process) (fault : JsError) :
  exit_code p = None ->
  handle p (UncaughtException fault)
  = send_then_exit
      (failure_message ("Uncaught exception: " ++ error_text fault)) 1 p.
Proof. intros H; unfold Worker.handle; rewrite H; reflexivity. Qed.

(** Only handlers send, and they only add to what was sent. *)
Lemma handle_sent (p : Process) (e : Event) :
  exists more, sent (handle p e) = (sent p ++ more)%list.
Proof.
  unfold Worker.handle.
  destruct (exit_code p); [exists []; now rewrite app_nil_r |].
  destruct e as [request | fault |].
  - unfold on_message.
    destruct (renderPage (url request) (options_or_empty request));
      eexists; reflexivity.
  - eexists; reflexivity.
  - unfold on_send_callback.
    destruct (callbacks p); exists []; now rewrite app_nil_r.
Qed.

Lemma fold_handle_sent (events : list Event) :
  forall p, exists more,
    sent (fold_left handle events p) = (sent p ++ more)%list.
Proof.
  induction events as [| e events IH]; intros p; simpl.
  - exists []; now rewrite app_nil_r.
  - destruct (IH (handle p e)) as [more2 H2].
    destruct (handle_sent p e) as [more1 H1].
    exists (more1 ++ more2)%list.
    now rewrite H2, H1, app_assoc.
Qed.

Lemma send_then_exit_inv (m : Dispatcher.Message) (p : Process) :
  Dispatcher.ready m = false ->
  exit_code p = None ->
  worker_inv p ->
  worker_inv (send_then_exit m (status m) p).
Proof.
  intros Hm Hp (outs & Hs & Hf & Hc).
  rewrite Hp in Hc.
  exists (outs ++ [m])%list; simpl.
  split; [rewrite Hs; reflexivity |].
  split; [apply Forall_app; split; [exact Hf | constructor; [exact Hm | constructor]] |].
  rewrite Hp, Hc, map_app; reflexivity.
Qed.

Lemma handle_inv (p : Process) (e : Event) :
  worker_inv p -> worker_inv (handle p e).
Proof.
  intros Hinv.
  destruct (exit_code p) as [code |] eqn:Hp.
  { now rewrite (handle_exited p e code Hp). }
  destruct e as [request | fault |].
  - rewrite (handle_incoming p request Hp).
    destruct (renderPage (url request) (options_or_empty request))
      as [page | error].
    + exact (send_then_exit_inv (success_message page) p eq_refl Hp Hinv).
    + exact (send_then_exit_inv (failure_message (error_text error)) p
               eq_refl Hp Hinv).
  - rewrite (handle_fault p fault Hp).
    exact (send_then_exit_inv
             (failure_message ("Uncaught exception: " ++ error_text fault))
             p eq_refl Hp Hinv).
  - unfold Worker.handle; rewrite Hp; unfold on_send_callback.
    destruct (callbacks p) as [| code rest] eqn:Hcb; [exact Hinv |].
    destruct Hinv as (outs & Hs & Hf & Hc).
    rewrite Hp, Hcb in Hc.
    exists outs; simpl.
    split; [exact Hs |]. split; [exact Hf |].
    destruct outs as [| m outs']; [discriminate |].
    simpl in Hc; injection Hc as Hcode _.
    exists m, outs'; split; [reflexivity | exact Hcode].
Qed.

Lemma started_inv : worker_inv started.
Proof.
  exists []; split; [reflexivity |]. split; [constructor | reflexivity].
Qed.

Lemma run_inv (events : list Event) : worker_inv (run events).
Proof.
  unfold Worker.run.
  assert (H : forall p, worker_inv p ->
                worker_inv (fold_left handle events p)).
  { induction events as [| e events IH]; intros p Hp; simpl; trivial.
    apply IH, handle_inv, Hp. }
  apply H, started_inv.
Qed.

Lemma outcomes_of_sent (p : Process) (outs : list Dispatcher.Message) :
  sent p = ready_message :: outs ->
  Forall (fun m => Dispatcher.ready m = false) outs ->
  outcomes p = outs.
Proof.
  intros Hs Hf; unfold outcomes; rewrite Hs; simpl; clear Hs.
  induction Hf as [| m l Hm _ IH]; simpl; [reflexivity |].
  unfold is_outcome at 1; rewrite Hm; simpl; now rewrite IH.
Qed.

(** While the worker is alive, it has answered every request and every
    fault it was handed, each with one message. *)
Lemma alive_answers_all (events : list Event) :
  exit_code (run events) = None ->
  List.length (sent (run events))
  = S (List.length (filter asks_outcome events)).
Proof.
  induction events as [| e events IH] using rev_ind; intros Halive.
  - reflexivity.
  - rewrite run_snoc in Halive |- *.
    pose proof (handle_alive _ _ Halive) as Hp.
    specialize (IH Hp).
    rewrite filter_app, length_app; simpl.
    destruct e as [request | fault |]; simpl.
    + rewrite (handle_incoming _ request Hp).
      destruct (renderPage (url request) (options_or_empty request));
        simpl; rewrite length_app, IH; simpl; lia.
    + rewrite (handle_fault _ fault Hp); simpl.
      rewrite length_app, IH; simpl; lia.
    + unfold Worker.handle in Halive |- *; rewrite Hp in Halive |- *.
      unfold on_send_callback in Halive |- *.
      destruct (callbacks (run events)); [rewrite IH; lia | discriminate].
Qed.

(** C9, as the code has it.  The worker sends the readiness message
    first, before anything is received, and only once: whatever it runs,
    every later message is an outcome.  While it is alive, a request
    makes it call
    [renderPage] and send exactly one outcome message, the success
    message with an exit of code 0 to follow when [renderPage] returns,
    the failure message with an exit of code 1 to follow when it throws;
    an uncaught exception makes it send a failure message with an exit
    of code 1 to follow; so a worker that is alive has sent as many
    outcomes as it was handed requests and faults.  The exit happens
    when the callback of a send runs: the worker exits with the code
    that belongs to the first outcome it sent, 0 after a success message
    and 1 after a failure message, and runs nothing afterwards.  With
    one request, or one fault, followed by the callback, the worker has
    sent the readiness message and that one outcome and has exited with
    its code. *)
Theorem C9_worker_ready_then_one_outcome
    (request : Request) (fault : JsError) (events more : list Event) :
  (sent started = [ready_message] /\ exit_code started = None)
  /\ (exists outs,
        sent (run events) = ready_message :: outs
        /\ outcomes (run events) = outs)
  /\ (exit_code (run events) = None ->
      (let p := run (events ++ [Incoming request]) in
       match renderPage (url request) (options_or_empty request) with
       | Ok page =>
           sent p = (sent (run events) ++ [success_message page])%list
           /\ callbacks p = (callbacks (run events) ++ [0%Z])%list
       | Err error =>
           sent p
           = (sent (run events)
              ++ [failure_message (error_text error)])%list
           /\ callbacks p = (callbacks (run events) ++ [1%Z])%list
       end)
      /\ (let p := run (events ++ [UncaughtException fault]) in
          sent p
          = (sent (run events)
             ++ [failure_message
                   ("Uncaught exception: " ++ error_text fault)])%list
          /\ callbacks p = (callbacks (run events) ++ [1%Z])%list)
      /\ List.length (outcomes (run events))
         = List.length (filter asks_outcome events))
  /\ (forall code,
        exit_code (run events) = Some code ->
        (exists m rest,
           outcomes (run events) = m :: rest
           /\ code = (if Dispatcher.success m then 0 else 1)%Z)
        /\ run (events ++ more) = run events)
  /\ (let p := run [Incoming request; SendCallback] in
      match renderPage (url request) (options_or_empty request) with
      | Ok page =>
          sent p = [ready_message; success_message page]
          /\ exit_code p = Some 0%Z
      | Err error =>
          sent p = [ready_message; failure_message (error_text error)]
          /\ exit_code p = Some 1%Z
      end)
  /\ (let p := run [UncaughtException fault; SendCallback] in
      sent p = [ready_message;
                failure_message
                  ("Uncaught exception: " ++ error_text fault)]
      /\ exit_code p = Some 1%Z).
Proof.
  pose proof (run_inv events) as (outs & Hs & Hf & Hc).
  pose proof (outcomes_of_sent _ _ Hs Hf) as Hout.
  split; [split; reflexivity |].
  split; [exists outs; split; assumption |].
  split; [| split; [| split]].
  - intros Halive.
    split; [| split].
    + cbv zeta; rewrite run_snoc, (handle_incoming _ request Halive).
      destruct (renderPage (url request) (options_or_empty request));
        split; reflexivity.
    + cbv zeta; rewrite run_snoc, (handle_fault _ fault Halive).
      split; reflexivity.
    + pose proof (alive_answers_all events Halive) as Hn.
      rewrite Hs in Hn; simpl in Hn.
      rewrite Hout; lia.
  - intros code Hcode.
    split.
    + rewrite Hcode in Hc.
      destruct Hc as (m & rest & Hm & Hst).
      exists m, rest; split; [rewrite Hout; exact Hm | exact Hst].
    + rewrite run_app; eapply fold_handle_exited, Hcode.
  - cbv zeta; unfold Worker.run; cbn [fold_left].
    rewrite (handle_incoming started request eq_refl).
    destruct (renderPage (url request) (options_or_empty request));
      split; reflexivity.
  - cbv zeta; split; reflexivity.
Qed.

End WorkerFacts.

Lemma C9_witness :
  Worker.sent
    (Worker.run Sample.renders_but_bad
       ([Worker.Incoming Sample.good_request]
        ++ [Worker.Incoming Sample.bad_request]))
  = [Worker.ready_message;
     Worker.success_message "<html></html>";
     Worker.failure_message "RenderTimeoutError: Rendering timed out"]
  /\ Worker.callbacks
       (Worker.run Sample.renders_but_bad
          ([Worker.Incoming Sample.good_request]
           ++ [Worker.Incoming Sample.bad_request]))
     = [0%Z; 1%Z].
Proof.
  exact (proj1
           (proj1 (proj2 (proj2
              (C9_worker_ready_then_one_outcome Sample.renders_but_bad
                 Sample.bad_request Sample.boom
                 [Worker.Incoming Sample.good_request] [])))
              eq_refl)).
Defined.

(** C9, as the claim words it, fails where a second event is handled
    before the callback of the first send has run.  A fault raised
    after the success message was sent has its failure message sent,
    yet the worker exits with status 0; and a worker handed a second
    request, whose render fails, before that callback exits with status
    0 after a failure message. *)
Lemma C9_counterexample :
  (Worker.sent
     (Worker.run Sample.renders_but_bad
        [Worker.Incoming Sample.good_request;
         Worker.UncaughtException Sample.boom;
         Worker.SendCallback])
   = [Worker.ready_message;
      Worker.success_message "<html></html>";
      Worker.failure_message "Uncaught exception: boom"]
   /\ Worker.exit_code
        (Worker.run Sample.renders_but_bad
           [Worker.Incoming Sample.good_request;
            Worker.UncaughtException Sample.boom;
            Worker.SendCallback])
      = Some 0%Z)
  /\ (Worker.sent
        (Worker.run Sample.renders_but_bad
           [Worker.Incoming Sample.good_request;
            Worker.Incoming Sample.bad_request;
            Worker.SendCallback])
      = [Worker.ready_message;
         Worker.success_message "<html></html>";
         Worker.failure_message "RenderTimeoutError: Rendering timed out"]
      /\ Worker.exit_code
           (Worker.run Sample.renders_but_bad
              [Worker.Incoming Sample.good_request;
               Worker.Incoming Sample.bad_request;
               Worker.SendCallback])
         = Some 0%Z).
Proof. repeat split; reflexivity. Qed.

(** ** The clean-up of the extracted HTML *)

Section TrimFacts.

Import Str.

Variable c : ascii.

Lemma trim_start_matches_repeat (n : nat) (s : string) :
  trim_start_matches c (repeat_char c n ++ s) = trim_start_matches c s.
Proof.
  induction n as [| n IH]; simpl; trivial.
  now rewrite Ascii.eqb_refl.
Qed.

Lemma trim_end_matches_repeat (n : nat) :
  trim_end_matches c (repeat_char c n) = EmptyString.
Proof.
  induction n as [| n IH]; simpl; trivial.
  now rewrite IH, Ascii.eqb_refl.
Qed.

Lemma trim_end_matches_app_repeat (s : string) (n : nat) :
  trim_end_matches c (s ++ repeat_char c n) = trim_end_matches c s.
Proof.
  induction s as [| a rest IH]; simpl.
  - apply trim_end_matches_repeat.
  - now rewrite IH.
Qed.

Lemma trim_start_matches_all (n : nat) :
  trim_start_matches c (repeat_char c n) = EmptyString.
Proof.
  induction n as [| n IH]; simpl; trivial.
  now rewrite Ascii.eqb_refl.
Qed.

Lemma trim_matches_app_repeat (s : string) (n : nat) :
  trim_matches c (s ++ repeat_char c n) = trim_matches c s.
Proof.
  unfold trim_matches.
  induction s as [| a rest IH].
  - simpl; now rewrite trim_start_matches_all.
  - cbn [append trim_start_matches].
    destruct (Ascii.eqb a c); [exact IH |].
    exact (trim_end_matches_app_repeat (String a rest) n).
Qed.

(** Quotes added at either end do not change what is kept. *)
Lemma trim_matches_wrapped (n m : nat) (s : string) :
  trim_matches c (repeat_char c n ++ s ++ repeat_char c m)
  = trim_matches c s.
Proof.
  unfold trim_matches at 1.
  rewrite trim_start_matches_repeat.
  exact (trim_matches_app_repeat s m).
Qed.

Lemma trim_start_matches_head (s : string) :
  starts_with_char c (trim_start_matches c s) = false.
Proof.
  induction s as [| a rest IH]; simpl; trivial.
  destruct (Ascii.eqb a c) eqn:E; [exact IH | simpl; exact E].
Qed.

Lemma trim_end_matches_head (s : string) :
  starts_with_char c s = false ->
  starts_with_char c (trim_end_matches c s) = false.
Proof.
  destruct s as [| a rest]; simpl; trivial.
  intros E.
  destruct (trim_end_matches c rest); [rewrite E |]; simpl; exact E.
Qed.

Lemma trim_end_matches_last (s : string) :
  ends_with_char c (trim_end_matches c s) = false.
Proof.
  induction s as [| a rest IH]; simpl; trivial.
  destruct (trim_end_matches c rest) as [| b kept].
  - destruct (Ascii.eqb a c) eqn:E; simpl; trivial.
  - exact IH.
Qed.

(** What is kept neither starts nor ends with the trimmed character. *)
Lemma trim_matches_ends (s : string) :
  starts_with_char c (trim_matches c s) = false
  /\ ends_with_char c (trim_matches c s) = false.
Proof.
  split.
  - apply trim_end_matches_head, trim_start_matches_head.
  - apply trim_end_matches_last.
Qed.

Lemma trim_start_matches_split (s : string) :
  exists n, s = repeat_char c n ++ trim_start_matches c s.
Proof.
  induction s as [| a rest [n IH]]; simpl.
  - exists 0; reflexivity.
  - destruct (Ascii.eqb_spec a c) as [-> | _].
    + exists (S n); simpl; now rewrite <- IH.
    + exists 0; reflexivity.
Qed.

Lemma trim_end_matches_split (s : string) :
  exists n, s = trim_end_matches c s ++ repeat_char c n.
Proof.
  induction s as [| a rest [n IH]]; simpl.
  - exists 0; reflexivity.
  - destruct (trim_end_matches c rest) as [| b kept].
    + destruct (Ascii.eqb_spec a c) as [-> | _].
      * exists (S n); simpl; now rewrite IH.
      * exists n; simpl; now rewrite IH.
    + exists n; simpl; now rewrite IH at 1.
Qed.

(** Only occurrences of the character, at the two ends, are removed. *)
Lemma trim_matches_split (s : string) :
  exists n m,
    s = repeat_char c n ++ trim_matches c s ++ repeat_char c m.
Proof.
  destruct (trim_start_matches_split s) as [n Hn].
  destruct (trim_end_matches_split (trim_start_matches c s)) as [m Hm].
  exists n, m; unfold trim_matches.
  now rewrite <- Hm.
Qed.

End TrimFacts.

Section ReplaceFacts.

Import Str.

Variables pat to : string.

Lemma replace_from_absent (fuel : nat) :
  forall s, includes pat s = false -> replace_from fuel pat to s = s.
Proof.
  induction fuel as [| fuel IH]; intros s H; cbn [replace_from]; trivial.
  destruct s as [| a rest]; trivial.
  cbn [includes] in H.
  destruct (prefix pat (String a rest)); [discriminate H |].
  now rewrite IH.
Qed.

(** Where the pattern does not occur, [replace] changes nothing. *)
Lemma replace_absent (s : string) :
  includes pat s = false -> replace pat to s = s.
Proof. apply replace_from_absent. Qed.

End ReplaceFacts.

(** ** The polling event loop *)

Section LoopFacts.

Import Native.

Variable wv : WebView.
Variable opts : RenderOptions.
Variable timeout_ms : N.
Variable elapsed : nat -> N.

Local Abbreviation tick := (main_events_cleared wv opts timeout_ms elapsed).
Local Abbreviation loop := (event_loop wv opts timeout_ms elapsed).
Local Abbreviation late := (timed_out timeout_ms elapsed).

(** Once the closure has asked for the exit no event is delivered. *)
Lemma event_loop_exited (fuel k : nat) (st : Loop) :
  control_flow st = Exit -> loop fuel k st = st.
Proof. intros H; destruct fuel; simpl; [| rewrite H]; reflexivity. Qed.

Lemma event_loop_polling (fuel k : nat) (st : Loop) :
  control_flow st = Poll -> loop (S fuel) k st = loop fuel (S k) (tick k st).
Proof. intros H; simpl; now rewrite H. Qed.

(** Running [a + b] events is running [a] of them, then [b] more. *)
Lemma event_loop_add (a b : nat) :
  forall k st, loop (a + b) k st = loop b (k + a) (loop a k st).
Proof.
  induction a as [| a IH]; intros k st.
  - simpl; now rewrite Nat.add_0_r.
  - cbn [Nat.add event_loop].
    destruct (control_flow st) eqn:E.
    + rewrite IH; f_equal; lia.
    + now rewrite event_loop_exited.
Qed.

(** The tick at which the timeout has been reached ends the session with
    the failure [Timeout]. *)
Lemma tick_late (k : nat) (st : Loop) :
  late k = true -> tick k st = exit (set_error Timeout st).
Proof. intros H; unfold main_events_cleared; now rewrite H. Qed.

(** The first tick at which a test on the tick number holds. *)
Lemma first_tick (p : nat -> bool) (k : nat) :
  p k = true ->
  exists k0, k0 <= k /\ p k0 = true /\ forall j, j < k0 -> p j = false.
Proof.
  intros Hk.
  assert (Hscan : forall n,
             (forall j, j < n -> p j = false)
             \/ exists k0, k0 < n /\ p k0 = true
                           /\ forall j, j < k0 -> p j = false).
  { induction n as [| n [Hnone | (k0 & Hlt & Hp & Hmin)]].
    - left; intros j Hj; lia.
    - destruct (p n) eqn:Hn.
      + right; exists n; repeat split; [lia | exact Hn | exact Hnone].
      + left; intros j Hj.
        destruct (Nat.eq_dec j n) as [-> | Hne]; [exact Hn |].
        apply Hnone; lia.
    - right; exists k0; repeat split; [lia | exact Hp | exact Hmin]. }
  destruct (Hscan k) as [Hnone | (k0 & Hlt & Hp & Hmin)].
  - exists k; repeat split; [lia | exact Hk | exact Hnone].
  - exists k0; repeat split; [lia | exact Hp | exact Hmin].
Qed.

(** A loop that polls and keeps polling at every tick before the
    timeout ends with [Timeout] at the first late tick. *)
Lemma loop_until_late (keeps : Loop -> Prop) :
  (forall k st, keeps st -> control_flow st = Poll -> late k = false ->
                keeps (tick k st) /\ control_flow (tick k st) = Poll) ->
  forall d k st,
    keeps st -> control_flow st = Poll ->
    (forall j, k <= j < k + d -> late j = false) ->
    control_flow (loop d k st) = Poll
    /\ (late (k + d) = true ->
        forall fuel, d < fuel ->
                     outcome (loop fuel k st) = Some (Err Timeout)).
Proof.
  intros Hstep.
  induction d as [| d IH]; intros k st Hkeep Hpoll Hearly.
  - split; [exact Hpoll |].
    rewrite Nat.add_0_r; intros Hlate fuel Hfuel.
    destruct fuel as [| fuel]; [lia |].
    rewrite event_loop_polling by exact Hpoll.
    rewrite tick_late by exact Hlate.
    rewrite event_loop_exited by reflexivity.
    reflexivity.
  - assert (Hk : late k = false) by (apply Hearly; lia).
    destruct (Hstep k st Hkeep Hpoll Hk) as [Hkeep' Hpoll'].
    assert (Hearly' : forall j, S k <= j < S k + d -> late j = false)
      by (intros j Hj; apply Hearly; lia).
    destruct (IH (S k) (tick k st) Hkeep' Hpoll' Hearly') as [Hd Hend].
    split.
    + rewrite event_loop_polling by exact Hpoll; exact Hd.
    + replace (k + S d) with (S k + d) by lia.
      intros Hlate fuel Hfuel.
      destruct fuel as [| fuel]; [lia |].
      rewrite event_loop_polling by exact Hpoll.
      apply Hend; [exact Hlate | lia].
Qed.

End LoopFacts.

Section SelectorNeverAppears.

Import Native.

Variable wv : WebView.
Variable opts : RenderOptions.
Variable timeout_ms : N.
Variable elapsed : nat -> N.
Variable sel : string.

Hypothesis wait_set : wait_for opts = Some sel.

(** The query for the selector is always answered, and never with
    [true]. *)
Hypothesis never_appears :
  forall n, exists r, wv n (wait_check_script sel) = Ok r /\ r <> "true".

Local Abbreviation tick := (main_events_cleared wv opts timeout_ms elapsed).
Local Abbreviation late := (timed_out timeout_ms elapsed).

(** Before the timeout every tick leaves the loop polling: the load is
    still awaited, or the selector is. *)
Lemma tick_keeps_polling (k : nat) (st : Loop) :
  control_flow st = Poll -> late k = false ->
  control_flow (tick k st) = Poll.
Proof.
  intros Hpoll Hk.
  unfold main_events_cleared; rewrite Hk.
  destruct (loaded st); simpl.
  - unfold wait_for_selector, evaluate_script; rewrite wait_set.
    destruct (never_appears (List.length (evals st))) as (r & -> & Hr).
    apply String.eqb_neq in Hr; rewrite Hr; simpl; exact Hpoll.
  - unfold detect_load, evaluate_script.
    destruct (wv (List.length (evals st)) ready_script) as [r | e];
      [destruct (String.eqb r "true") |]; simpl; exact Hpoll.
Qed.

(** When the query for the selector waited for is answered at every
    poll, and never with [true], the session ends with the failure
    [Timeout] at the first tick at which the time elapsed since the
    session started has reached the timeout: the loop polls until that
    tick and returns [Timeout] from it on, whenever the page finished
    loading, so the time spent waiting for the load counts.  When the
    first tick comes within [eps] of the start and two consecutive ticks
    are at most [eps] apart, that is at most [timeout_ms + eps] after the
    start. *)
Lemma answered_wait_times_out :
  (exists k, (timeout_ms <= elapsed k)%N) ->
  exists k0,
    (timeout_ms <= elapsed k0)%N
    /\ (forall j, j < k0 -> (elapsed j < timeout_ms)%N)
    /\ (forall fuel, fuel <= k0 ->
          run_webview_blocking wv opts timeout_ms elapsed fuel = None)
    /\ (forall fuel, k0 < fuel ->
          run_webview_blocking wv opts timeout_ms elapsed fuel
          = Some (Err Timeout))
    /\ (forall eps,
          (elapsed 0 <= eps)%N ->
          (forall k, (elapsed (S k) <= elapsed k + eps)%N) ->
          (elapsed k0 <= timeout_ms + eps)%N).
Proof.
  intros [k Hk].
  destruct (first_tick late k) as (k0 & _ & Hlate & Hearly).
  { unfold timed_out; now apply N.leb_le. }
  assert (Hbefore : forall j, j < k0 -> (elapsed j < timeout_ms)%N).
  { intros j Hj; specialize (Hearly j Hj).
    unfold timed_out in Hearly; apply N.leb_gt in Hearly; exact Hearly. }
  assert (Hstep : forall j st,
             True -> control_flow st = Poll -> late j = false ->
             True /\ control_flow (tick j st) = Poll)
    by (intros j st _ Hp Hj; split; [exact I | now apply tick_keeps_polling]).
  exists k0.
  split; [unfold timed_out in Hlate; now apply N.leb_le in Hlate |].
  split; [exact Hbefore |].
  split; [| split].
  - intros fuel Hfuel.
    destruct (loop_until_late wv opts timeout_ms elapsed (fun _ => True)
                Hstep fuel 0 init I eq_refl) as [Hpoll _].
    { intros j Hj; apply Hearly; lia. }
    unfold run_webview_blocking, outcome; now rewrite Hpoll.
  - intros fuel Hfuel.
    destruct (loop_until_late wv opts timeout_ms elapsed (fun _ => True)
                Hstep k0 0 init I eq_refl) as [_ Hend].
    { intros j Hj; apply Hearly; lia. }
    apply Hend; [exact Hlate | exact Hfuel].
  - intros eps H0 Hgap.
    destruct k0 as [| k1]; [lia |].
    specialize (Hbefore k1 (Nat.lt_succ_diag_r k1)).
    specialize (Hgap k1); lia.
Qed.

End SelectorNeverAppears.

Section PollingFacts.

Import Native.

Variable wv : WebView.
Variable opts : RenderOptions.
Variable timeout_ms : N.
Variable elapsed : nat -> N.

Local Abbreviation tick := (main_events_cleared wv opts timeout_ms elapsed).
Local Abbreviation loop := (event_loop wv opts timeout_ms elapsed).

Lemma tick_polling_clean (k : nat) (st : Loop) :
  polling_clean st -> control_flow st = Poll -> polling_clean (tick k st).
Proof.
  intros Hclean Hpoll; specialize (Hclean Hpoll).
  unfold polling_clean, main_events_cleared, detect_load, wait_for_selector,
    execute_script, extract_html, evaluate_script.
  repeat match goal with
         | |- context [match ?x with _ => _ end] => destruct x
         | |- context [if ?x then _ else _] => destruct x
         end;
    simpl; intros H; (discriminate H || exact Hclean).
Qed.

Lemma loop_polling_clean (fuel : nat) :
  forall k st, polling_clean st -> polling_clean (loop fuel k st).
Proof.
  induction fuel as [| fuel IH]; intros k st H; simpl; trivial.
  destruct (control_flow st) eqn:E; trivial.
  apply IH, tick_polling_clean; assumption.
Qed.

Lemma init_polling_clean : polling_clean init.
Proof. intros _; split; reflexivity. Qed.

End PollingFacts.

Section ExtractSelectorMiss.

Import Str Native.

Variable wv : WebView.
Variable opts : RenderOptions.
Variable timeout_ms : N.
Variable elapsed : nat -> N.
Variable sel : string.

(** The number of ticks after which the page is found loaded. *)
Variable k : nat.

Local Abbreviation tick := (main_events_cleared wv opts timeout_ms elapsed).
Local Abbreviation loop := (event_loop wv opts timeout_ms elapsed).
Local Abbreviation st := (event_loop wv opts timeout_ms elapsed k 0 init).

Hypothesis selector_set : selector opts = Some sel.
Hypothesis page_loaded : loaded st = true.
Hypothesis still_polling : control_flow st = Poll.
Hypothesis in_time : timed_out timeout_ms elapsed k = false.

(** The selector waited for, if any, is found at this tick. *)
Hypothesis wait_passes :
  forall ws, wait_for opts = Some ws ->
             wv (List.length (evals st)) (wait_check_script ws) = Ok "true".

(** The custom script, if any, evaluates without error. *)
Hypothesis script_succeeds :
  forall cs n, script opts = Some cs -> exists v, wv n cs = Ok v.

(** The extraction is answered with double quotes only. *)
Hypothesis no_match :
  forall n, exists q,
      wv n (extract_script (Some sel)) = Ok (repeat_char dquote q).

Lemma cleaned_only_quotes (q : nat) :
  cleaned (repeat_char dquote q) = EmptyString.
Proof.
  unfold cleaned, trim_matches.
  now rewrite trim_start_matches_all.
Qed.

Lemma extract_html_miss (s : Loop) :
  extract_html wv opts s
  = exit (set_html EmptyString
            (snd (evaluate_script wv PExtract (extract_script (Some sel)) s))).
Proof.
  unfold extract_html, evaluate_script; rewrite selector_set.
  destruct (no_match (List.length (evals s))) as [q ->].
  simpl; now rewrite cleaned_only_quotes.
Qed.

Lemma execute_script_miss (s : Loop) :
  exists s', execute_script wv opts s = exit (set_html EmptyString s')
             /\ error s' = error s.
Proof.
  unfold execute_script.
  destruct (script opts) as [cs |] eqn:Es.
  - destruct (script_succeeds cs (List.length (evals s)) eq_refl) as [v Hv].
    unfold evaluate_script at 1; rewrite Hv.
    rewrite extract_html_miss; eexists; split; reflexivity.
  - rewrite extract_html_miss; eexists; split; reflexivity.
Qed.

Lemma final_tick_miss :
  exists s', tick k st = exit (set_html EmptyString s')
             /\ error s' = error st.
Proof.
  unfold main_events_cleared; rewrite in_time, page_loaded; simpl.
  unfold wait_for_selector.
  destruct (wait_for opts) as [ws |] eqn:Ew.
  - unfold evaluate_script.
    rewrite (wait_passes ws eq_refl); simpl.
    match goal with
    | |- context [execute_script wv opts ?s] =>
        destruct (execute_script_miss s) as (s' & -> & Herr)
    end.
    exists s'; split; [reflexivity | exact Herr].
  - apply execute_script_miss.
Qed.

(** An extraction that is answered with double quotes only, on a page
    that has loaded, at a tick before the timeout at which the selector
    waited for (if any) is present, with a custom script (if any) that
    evaluates without error, makes the session succeed with the empty
    string. *)
Lemma quotes_only_answer_gives_empty_html :
  forall fuel, k < fuel ->
    run_webview_blocking wv opts timeout_ms elapsed fuel
    = Some (Ok EmptyString).
Proof.
  intros fuel Hfuel.
  unfold run_webview_blocking.
  replace fuel with (k + S (fuel - S k)) by lia.
  rewrite event_loop_add; simpl Nat.add.
  rewrite event_loop_polling by exact still_polling.
  destruct final_tick_miss as (s' & -> & Herr).
  rewrite event_loop_exited by reflexivity.
  destruct (loop_polling_clean wv opts timeout_ms elapsed k 0 init
              (init_polling_clean) still_polling) as [Hnone _].
  unfold outcome; simpl; rewrite Herr, Hnone; reflexivity.
Qed.

End ExtractSelectorMiss.

Section CustomScript.

Import Native.

Variable wv : WebView.
Variable opts : RenderOptions.
Variable timeout_ms : N.
Variable elapsed : nat -> N.
Variable custom : string.

Hypothesis script_set : script opts = Some custom.

Local Abbreviation tick := (main_events_cleared wv opts timeout_ms elapsed).
Local Abbreviation loop := (event_loop wv opts timeout_ms elapsed).

Local Abbreviation last_wait := (Native.last_wait opts).
Local Abbreviation ran_after_waiting :=
  (Native.ran_after_waiting wv opts custom).
Local Abbreviation session_inv := (Native.session_inv wv opts custom).

Lemma count_waiting (l : list Eval) :
  Forall waiting l ->
  filter (fun e => purpose_eqb (purpose e) PCustom) l = [].
Proof.
  induction 1 as [| x l [Hx | Hx] _ IH]; simpl; trivial;
    rewrite Hx; simpl; exact IH.
Qed.

Lemma count_extract (l : list Eval) :
  Forall (fun x => purpose x = PExtract) l ->
  filter (fun e => purpose_eqb (purpose e) PCustom) l = [].
Proof.
  induction 1 as [| x l Hx _ IH]; simpl; trivial.
  rewrite Hx; simpl; exact IH.
Qed.

Lemma last_wait_waiting (w : list Eval) :
  last_wait w -> Forall waiting w.
Proof.
  unfold Native.last_wait; destruct (wait_for opts) as [ws |].
  - intros (x & -> & Hp & _); constructor; [right; exact Hp | constructor].
  - intros ->; constructor.
Qed.

Lemma ran_after_waiting_count (st : Loop) :
  ran_after_waiting st -> count_evals PCustom st = 1.
Proof.
  intros (pre & w & c & post & He & Hpre & _ & Hw & Hc & _ & _ & Hpost & _).
  unfold count_evals; rewrite He, !filter_app; simpl.
  rewrite Hc; simpl.
  rewrite (count_waiting pre Hpre), (count_waiting w (last_wait_waiting w Hw)),
    (count_extract post Hpost).
  reflexivity.
Qed.

(** In such a log the only evaluation of the custom script is the one
    singled out. *)
Lemma custom_in_log (pre w post : list Eval) (c x : Eval) :
  Forall waiting pre -> Forall waiting w ->
  Forall (fun y => purpose y = PExtract) post ->
  In x (pre ++ w ++ c :: post)%list -> purpose x = PCustom -> x = c.
Proof.
  intros Hpre Hw Hpost Hin Hx.
  rewrite !in_app_iff in Hin; simpl in Hin.
  destruct Hin as [Hin | [Hin | [Heq | Hin]]].
  - rewrite Forall_forall in Hpre.
    destruct (Hpre x Hin) as [H | H]; rewrite H in Hx; discriminate Hx.
  - rewrite Forall_forall in Hw.
    destruct (Hw x Hin) as [H | H]; rewrite H in Hx; discriminate Hx.
  - now symmetry.
  - rewrite Forall_forall in Hpost.
    rewrite (Hpost x Hin) in Hx; discriminate Hx.
Qed.

(** Phase 6 and what follows it, entered after the polls [pre] and the
    end [w] of the wait for the selector. *)
Lemma execute_script_inv (s : Loop) (pre w : list Eval) :
  evals s = (pre ++ w)%list -> error s = None ->
  Forall waiting pre -> Exists found_ready pre -> last_wait w ->
  exists s',
    execute_script wv opts s = s'
    /\ control_flow s' = Exit
    /\ error s' <> Some Timeout
    /\ ran_after_waiting s'.
Proof.
  intros He Herr Hpre Hready Hw.
  unfold execute_script; rewrite script_set.
  unfold evaluate_script at 1.
  destruct (wv (List.length (evals s)) custom) as [v | e] eqn:Ea.
  - unfold extract_html, evaluate_script.
    match goal with
    | |- context [match ?r with Ok _ => _ | Err _ => _ end] =>
        destruct r as [result | e'] eqn:Ex
    end;
      (eexists; split; [reflexivity |]; simpl;
       split; [reflexivity |];
       split; [rewrite ?Herr; discriminate |];
       eexists pre, w, _, [_]; rewrite He, <- !app_assoc; simpl;
       repeat split; trivial;
       [ rewrite <- He; symmetry; exact Ea
       | repeat constructor
       | discriminate
       | discriminate ]).
  - eexists; split; [reflexivity |]; simpl.
    split; [reflexivity |].
    split; [discriminate |].
    eexists pre, w, _, []; rewrite He, <- !app_assoc; simpl.
    repeat split; trivial.
    + rewrite <- He; symmetry; exact Ea.
    + injection H as <-; reflexivity.
Qed.

Lemma enter_script (s : Loop) (pre w : list Eval) :
  evals s = (pre ++ w)%list -> error s = None ->
  Forall waiting pre -> Exists found_ready pre -> last_wait w ->
  session_inv (execute_script wv opts s).
Proof.
  intros He Herr Hpre Hready Hw.
  destruct (execute_script_inv s pre w He Herr Hpre Hready Hw)
    as (s' & -> & Hexit & Hfail & Hran).
  right; right; auto.
Qed.

Lemma tick_session_inv (k : nat) (st : Loop) :
  session_inv st -> control_flow st = Poll -> session_inv (tick k st).
Proof.
  intros [(_ & Herr & Hlog & Hready) | [(Hexit & _) | (Hexit & _)]] Hpoll;
    try (rewrite Hpoll in Hexit; discriminate Hexit).
  unfold main_events_cleared.
  destruct (timed_out timeout_ms elapsed k).
  { right; left; simpl; auto. }
  destruct (loaded st) eqn:El; simpl.
  - specialize (Hready eq_refl).
    unfold wait_for_selector.
    destruct (wait_for opts) as [ws |] eqn:Ew.
    + unfold evaluate_script.
      destruct (wv (List.length (evals st)) (wait_check_script ws))
        as [r | e] eqn:Ea;
        [destruct (String.eqb r "true") eqn:Er |]; simpl.
      * apply (enter_script _ (evals st)
                 [ {| purpose := PWait; source := wait_check_script ws;
                      answer := Ok r |} ]); simpl; trivial.
        unfold Native.last_wait; rewrite Ew.
        eexists; repeat split; simpl.
        now apply String.eqb_eq.
      * left; simpl; repeat split; trivial.
        -- apply Forall_app; split; [exact Hlog |].
           repeat constructor; right; reflexivity.
        -- intros _; apply Exists_app; left; exact Hready.
      * apply (enter_script _ (evals st)
                 [ {| purpose := PWait; source := wait_check_script ws;
                      answer := Err e |} ]); simpl; trivial.
        unfold Native.last_wait; rewrite Ew.
        eexists; repeat split; simpl.
    + apply (enter_script st (evals st) []); trivial.
      * now rewrite app_nil_r.
      * unfold Native.last_wait; now rewrite Ew.
  - left.
    unfold detect_load, evaluate_script.
    destruct (wv (List.length (evals st)) ready_script) as [r | e] eqn:Ea;
      [destruct (String.eqb r "true") eqn:Er |]; simpl;
      (split; [exact Hpoll |]); (split; [exact Herr |]);
      (split; [apply Forall_app; split; [exact Hlog |];
               repeat constructor; left; reflexivity |]).
    + intros _; apply Exists_app; right.
      constructor; split; simpl; [reflexivity |].
      apply String.eqb_eq in Er; now rewrite Er.
    + intros H; rewrite El in H; discriminate H.
    + intros H; rewrite El in H; discriminate H.
Qed.

Lemma loop_session_inv (fuel : nat) :
  forall k st, session_inv st -> session_inv (loop fuel k st).
Proof.
  induction fuel as [| fuel IH]; intros k st H; simpl; trivial.
  destruct (control_flow st) eqn:E; trivial.
  apply IH, tick_session_inv; assumption.
Qed.

Lemma init_session_inv : session_inv init.
Proof.
  left; simpl; repeat split; [constructor | discriminate].
Qed.

End CustomScript.

Section CustomScriptClaim.

Import Native.



End CustomScriptClaim.

(** C3, with a selector whose query fails to evaluate.  The text
    [div[] is not a valid selector, so no element ever matches it and
    [querySelector] throws; phase 5 takes the failed query for the end
    of the wait.  On a page that is ready at once the session stores
    the document at its second tick, far before the timeout, and
    returns it: it does not wait, and it never ends with [Timeout],
    however long it is run.  The same holds of any WebView on which the
    query of the selector waited for fails at every poll. *)
Theorem C3_failed_query_ends_the_wait :
  Native.wait_for Sample.wait_typo = Some "div["
  /\ (forall n,
        MiniJs.browser Pages.strict_dom Pages.quiet n
          (Native.wait_check_script "div[")
        = Err "SyntaxError: 'div[' is not a valid selector")
  /\ (Native.control_flow
        (Native.event_loop (MiniJs.browser Pages.strict_dom Pages.quiet)
           Sample.wait_typo 5000 Sample.every_100ms 2 0 Native.init)
      = Native.Exit
      /\ Native.html
           (Native.event_loop (MiniJs.browser Pages.strict_dom Pages.quiet)
              Sample.wait_typo 5000 Sample.every_100ms 2 0 Native.init)
         = Some "<html></html>"
      /\ Native.error
           (Native.event_loop (MiniJs.browser Pages.strict_dom Pages.quiet)
              Sample.wait_typo 5000 Sample.every_100ms 2 0 Native.init)
         = None)
  /\ (forall fuel, 2 <= fuel ->
        Native.run_webview_blocking
          (MiniJs.browser Pages.strict_dom Pages.quiet)
          Sample.wait_typo 5000 Sample.every_100ms fuel
        = Some (Ok "<html></html>"))
  /\ (forall fuel,
        Native.run_webview_blocking
          (MiniJs.browser Pages.strict_dom Pages.quiet)
          Sample.wait_typo 5000 Sample.every_100ms fuel
        <> Some (Err Native.Timeout))
  /\ (forall n,
        MoreSamples.failing_query_page n (Native.wait_check_script "#app")
        <> Ok "true")
  /\ (forall fuel, 2 <= fuel ->
        Native.run_webview_blocking MoreSamples.failing_query_page
          MoreSamples.whole_document 5000 Sample.every_100ms fuel
        = Some (Ok "<html></html>")).
Proof.
  assert (Hdone : forall wv opts,
            Native.control_flow
              (Native.event_loop wv opts 5000 Sample.every_100ms 2 0
                 Native.init) = Native.Exit ->
            forall fuel, 2 <= fuel ->
              Native.run_webview_blocking wv opts 5000 Sample.every_100ms
                fuel
              = Native.outcome
                  (Native.event_loop wv opts 5000 Sample.every_100ms 2 0
                     Native.init)).
  { intros wv opts Hexit fuel Hfuel.
    replace fuel with (2 + (fuel - 2)) by lia.
    unfold Native.run_webview_blocking.
    rewrite event_loop_add, event_loop_exited; [reflexivity | exact Hexit]. }
  assert (Hpage : forall fuel, 2 <= fuel ->
            Native.run_webview_blocking
              (MiniJs.browser Pages.strict_dom Pages.quiet)
              Sample.wait_typo 5000 Sample.every_100ms fuel
            = Some (Ok "<html></html>")).
  { intros fuel Hfuel; rewrite Hdone; [| | exact Hfuel]; reflexivity. }
  split; [reflexivity |].
  split; [intros n; reflexivity |].
  split; [repeat split; reflexivity |].
  split; [exact Hpage |].
  split.
  { intros [| [| fuel]]; [vm_compute; discriminate .. |].
    rewrite Hpage by lia; discriminate. }
  split; [intros n; vm_compute; discriminate |].
  intros fuel Hfuel; rewrite Hdone; [| | exact Hfuel]; reflexivity.
Qed.

(** ** More on the dispatcher *)

Section DispatcherMore.

Import Dispatcher.

Variable url : string.
Variable options : Options.

Local Abbreviation killed_by_timeout := (Shape.killed_by_timeout options).

Lemma handle_killed_by_timeout (c : Child) (e : Event) :
  settled_once c -> killed_by_timeout c ->
  killed_by_timeout (handle url options c e).
Proof.
  unfold settled_once, Shape.killed_by_timeout; intros Hs Hk.
  assert (Hsettle : forall s,
             resolved c = false -> killed (settle s c) = true ->
             resolved (settle s c) = true
             /\ settled (settle s c) = [Reject (timeout_message options)]).
  { intros s Hr Hkc; simpl in Hkc.
    destruct (Hk Hkc) as [Hr' _]; rewrite Hr in Hr'; discriminate Hr'. }
  destruct e as [m | m | code | ]; simpl.
  - unfold on_message.
    destruct (ready m); [exact Hk |].
    destruct (success m);
      [| destruct (truthy (error m)); [| exact Hk]];
      (destruct (resolved c) eqn:Hr; simpl negb; cbv iota;
       [rewrite <- Hr in *; exact Hk | now apply Hsettle]).
  - unfold on_error.
    destruct (resolved c) eqn:Hr; simpl negb; cbv iota;
      [rewrite <- Hr in *; exact Hk | now apply Hsettle].
  - unfold on_exit.
    destruct (resolved c) eqn:Hr; simpl negb; cbv iota;
      [rewrite <- Hr in *; exact Hk | now apply Hsettle].
  - unfold on_kill_timeout.
    destruct (killTimeout c); [| exact Hk].
    destruct (resolved c) eqn:Hr; simpl negb; cbv iota.
    + simpl; rewrite <- Hr in *; exact Hk.
    + simpl; destruct Hs as [_ ->]; intros _; split; reflexivity.
Qed.

Lemma fold_handle_killed_by_timeout (events : list Event) :
  forall c, settled_once c -> killed_by_timeout c ->
            killed_by_timeout (fold_left (handle url options) events c).
Proof.
  induction events as [| e events IH]; intros c Hs Hk; simpl; trivial.
  apply IH; [apply handle_settled_once | apply handle_killed_by_timeout];
    assumption.
Qed.

Lemma deliver_killed_by_timeout (events : list Event) :
  killed_by_timeout (deliver url options events).
Proof.
  apply fold_handle_killed_by_timeout; [apply settled_once_forked |].
  intros H; discriminate H.
Qed.

(** On a settled call no handler, the timer's included, kills the child
    or spares it. *)
Lemma handle_resolved_keeps_killed (c : Child) (e : Event) :
  resolved c = true -> killed (handle url options c e) = killed c.
Proof.
  intros Hr.
  destruct e as [m | m | code | ]; simpl.
  - unfold on_message.
    destruct (ready m); [reflexivity |].
    destruct (success m); [rewrite Hr; reflexivity |].
    destruct (truthy (error m)); rewrite ?Hr; reflexivity.
  - unfold on_error; rewrite Hr; reflexivity.
  - unfold on_exit; rewrite Hr; reflexivity.
  - unfold on_kill_timeout.
    destruct (killTimeout c); rewrite ?Hr; reflexivity.
Qed.

Lemma fold_handle_resolved_keeps_killed (events : list Event) :
  forall c, resolved c = true ->
            killed (fold_left (handle url options) events c) = killed c.
Proof.
  induction events as [| e events IH]; intros c Hr; simpl; trivial.
  rewrite IH by (apply handle_resolved, Hr).
  now apply handle_resolved_keeps_killed.
Qed.

(** The child is killed only when the call ends by the dispatcher's
    timeout: whatever is delivered, a killed child means that the one
    settlement is the timeout rejection; and the timer that runs after the
    events kills the child exactly when nothing had settled the call. *)
Theorem kill_only_on_timeout (events : list Event) :
  (killed (renderInChildProcess url options events) = true ->
   settled (renderInChildProcess url options events)
   = [Reject (timeout_message options)])
  /\ (resolved (deliver url options events) = false ->
      killed (renderInChildProcess url options events) = true)
  /\ (resolved (deliver url options events) = true ->
      killed (renderInChildProcess url options events)
      = killed (deliver url options events)).
Proof.
  pose proof (deliver_settled_once url options events) as Hs.
  repeat split.
  - intros Hk.
    exact (proj2 (handle_killed_by_timeout (deliver url options events)
                    OnKillTimeout Hs (deliver_killed_by_timeout events) Hk)).
  - intros Hr.
    unfold settled_once in Hs; rewrite Hr in Hs; destruct Hs as [Hk _].
    unfold renderInChildProcess, on_kill_timeout.
    rewrite Hk, Hr; reflexivity.
  - intros Hr.
    exact (handle_resolved_keeps_killed _ OnKillTimeout Hr).
Qed.

(** An [error] event of the child (a failed spawn, a message that could
    not be sent) that comes before any settlement rejects the call with
    that error, for good, and the child is not killed. *)
Theorem child_error_rejects (pre more : list Event) (message : string) :
  resolved (deliver url options pre) = false ->
  settled (renderInChildProcess url options (pre ++ OnError message :: more))
  = [Reject message]
  /\ killed (renderInChildProcess url options
               (pre ++ OnError message :: more)) = false.
Proof.
  intros Hr.
  pose proof (deliver_settled_once url options pre) as Hs.
  unfold settled_once in Hs; rewrite Hr in Hs; destruct Hs as [_ Hs].
  assert (Hk : killed (deliver url options pre) = false).
  { destruct (killed (deliver url options pre)) eqn:Hk; [| reflexivity].
    destruct (deliver_killed_by_timeout pre Hk) as [Hr' _].
    rewrite Hr in Hr'; discriminate Hr'. }
  set (c := settle (Reject message) (deliver url options pre)).
  assert (Hc : renderInChildProcess url options
                 (pre ++ OnError message :: more)
               = fold_left (handle url options) (more ++ [OnKillTimeout]) c).
  { unfold renderInChildProcess; rewrite deliver_app; simpl.
    unfold on_error; rewrite Hr; simpl.
    rewrite fold_left_app; reflexivity. }
  rewrite Hc.
  destruct (fold_handle_resolved url options (more ++ [OnKillTimeout]) c
              eq_refl) as [_ ->].
  rewrite (fold_handle_resolved_keeps_killed (more ++ [OnKillTimeout]) c
             eq_refl).
  subst c; simpl; rewrite Hs, Hk; split; reflexivity.
Qed.

(** The dispatcher's timer, for a render timeout that a timer of Node
    holds together with its margin.  With [options.timeout || 5000]
    equal to [t] and [t + 2000] between 1 and 2147483647, the timer runs
    [t + 2000] ms after the fork, later than the render timeout.  When
    it fires on a call not yet settled, the child is killed and the call
    rejected with [Render timeout after ] [t] [ms]; whatever the parent
    is delivered afterwards (the exit of the killed child included),
    that rejection stays the only settlement, and it is not the error of
    the exit handler. *)
Theorem kill_timer_waits_beyond_render_timeout
    (events more : list Event) (t : Z) :
  Shape.effective_timeout options t ->
  (1 <= t + 2000 <= TIMEOUT_MAX)%Z ->
  resolved (deliver url options events) = false ->
  kill_delay options = (t + 2000)%Z
  /\ (t < kill_delay options)%Z
  /\ killed (renderInChildProcess url options events) = true
  /\ settled (renderInChildProcess url options events)
     = [Reject ("Render timeout after " ++ Str.of_Z t ++ "ms")]
  /\ settled (fold_left (handle url options) more
                (renderInChildProcess url options events))
     = [Reject ("Render timeout after " ++ Str.of_Z t ++ "ms")]
  /\ forall code,
      ~ In (Reject (exit_message code))
           (settled (fold_left (handle url options) more
                       (renderInChildProcess url options events))).
Proof.
  intros Ht Hrange Hr.
  assert (Hrt : render_timeout options = t).
  { unfold render_timeout.
    destruct Ht as [[-> Hnz] | [[-> | ->] ->]]; try reflexivity.
    destruct (Z.eqb_spec t 0); [contradiction | reflexivity]. }
  assert (Hdelay : kill_delay options = (t + 2000)%Z).
  { unfold kill_delay, timer_delay; rewrite Hrt.
    destruct (Z.leb_spec 1 (t + 2000)); [| lia].
    destruct (Z.leb_spec (t + 2000) TIMEOUT_MAX); [reflexivity | lia]. }
  assert (Hmsg : timeout_message options
                 = "Render timeout after " ++ Str.of_Z t ++ "ms")
    by (unfold timeout_message; now rewrite Hrt).
  pose proof (deliver_settled_once url options events) as H.
  unfold settled_once in H; rewrite Hr in H; destruct H as [Hk Hs].
  assert (Hfire : renderInChildProcess url options events
                  = kill_and_reject options (deliver url options events)).
  { unfold renderInChildProcess, on_kill_timeout.
    rewrite Hk, Hr; reflexivity. }
  assert (Hafter : settled (fold_left (handle url options) more
                              (renderInChildProcess url options events))
                   = [Reject (timeout_message options)]).
  { rewrite Hfire.
    destruct (fold_handle_resolved url options more
                (kill_and_reject options (deliver url options events))
                eq_refl) as [_ ->].
    simpl; rewrite Hs; reflexivity. }
  split; [exact Hdelay |].
  split; [rewrite Hdelay; lia |].
  split; [rewrite Hfire; reflexivity |].
  split; [rewrite Hfire; simpl; rewrite Hs, Hmsg; reflexivity |].
  split; [rewrite Hafter, Hmsg; reflexivity |].
  intros code Hin; rewrite Hafter in Hin.
  destruct Hin as [Heq | []].
  injection Heq as Heq.
  exact (timeout_message_is_not_exit_message options code Heq).
Qed.

End DispatcherMore.

Section RequestsAndPipeline.

Import Dispatcher.

Variable url : string.
Variable options : Options.

Lemma handle_requests (c : Child) (e : Event) :
  requests (handle url options c e)
  = (requests c
     ++ if Pipeline.asks_request e then [(url, options)] else [])%list.
Proof.
  destruct e as [m | m | code | ]; simpl; rewrite ?app_nil_r.
  - unfold on_message.
    destruct (ready m); [reflexivity |]; rewrite app_nil_r.
    destruct (success m);
      [| destruct (truthy (error m)); [| reflexivity]];
      destruct (resolved c); reflexivity.
  - unfold on_error; destruct (resolved c); reflexivity.
  - unfold on_exit; destruct (resolved c); reflexivity.
  - unfold on_kill_timeout.
    destruct (killTimeout c); [| reflexivity].
    destruct (resolved c); reflexivity.
Qed.

Lemma fold_handle_requests (events : list Event) :
  forall c,
    requests (fold_left (handle url options) events c)
    = (requests c
       ++ repeat (url, options)
            (List.length (filter Pipeline.asks_request events)))%list.
Proof.
  induction events as [| e events IH]; intros c; simpl.
  - now rewrite app_nil_r.
  - rewrite IH, handle_requests.
    destruct (Pipeline.asks_request e); simpl.
    + now rewrite <- app_assoc.
    + now rewrite app_nil_r.
Qed.

(** The dispatcher answers every [ready] message, and nothing else, with
    the request: after any events the requests sent to the child are one
    copy of the URL and the options, unchanged, per [ready] message
    received, also when the call is already settled. *)
Theorem one_request_per_ready_message (events : list Event) :
  requests (renderInChildProcess url options events)
  = repeat (url, options)
      (List.length (filter Pipeline.asks_request events)).
Proof.
  unfold renderInChildProcess.
  change (on_kill_timeout options (deliver url options events))
    with (handle url options (deliver url options events) OnKillTimeout).
  rewrite handle_requests; simpl; rewrite app_nil_r.
  unfold deliver; now rewrite fold_handle_requests.
Qed.

(** A render through a worker, end to end.  The worker is asked once, for
    the URL and the options of the call; what [renderPage] returns there
    resolves the call, and what it throws rejects it with the error's text
    unchanged.  An error whose text is empty makes a failure message that
    the dispatcher ignores, and the call is rejected by the exit handler.
    The dispatcher never kills a worker that answers. *)
Theorem worker_result_reaches_caller
    (renderPage : string -> Options -> Result string Worker.JsError) :
  settled (Pipeline.child_render renderPage url options)
  = [ match renderPage url options with
      | Ok page => Resolve page
      | Err error =>
          if truthy (Worker.error_text error)
          then Reject (Worker.error_text error)
          else Reject "Worker process exited with code 1"
      end ]
  /\ requests (Pipeline.child_render renderPage url options)
     = [(url, options)]
  /\ killed (Pipeline.child_render renderPage url options) = false.
Proof.
  assert (Hworker :
            Pipeline.worker renderPage url options
            = Worker.on_send_callback
                match renderPage url options with
                | Ok page =>
                    Worker.send_then_exit (Worker.success_message page) 0
                      Worker.started
                | Err error =>
                    Worker.send_then_exit
                      (Worker.failure_message (Worker.error_text error)) 1
                      Worker.started
                end).
  { unfold Pipeline.worker; simpl.
    unfold Worker.handle at 2; simpl; unfold Worker.on_message.
    unfold Worker.options_or_empty; cbn [Worker.options Worker.url].
    destruct (renderPage url options); reflexivity. }
  unfold Pipeline.child_render; rewrite Hworker.
  destruct (renderPage url options) as [page | error].
  - repeat split.
  - unfold renderInChildProcess, deliver; simpl; unfold on_message; simpl.
    destruct (truthy (Worker.error_text error)); simpl; repeat split.
Qed.

End RequestsAndPipeline.

(** ** More on the polling event loop *)

Section LoopMore.

Import Native.

Variable wv : WebView.
Variable opts : RenderOptions.
Variable timeout_ms : N.
Variable elapsed : nat -> N.

Local Abbreviation tick := (main_events_cleared wv opts timeout_ms elapsed).
Local Abbreviation loop := (event_loop wv opts timeout_ms elapsed).
Local Abbreviation run := (run_webview_blocking wv opts timeout_ms elapsed).

Lemma outcome_exited (st : Loop) (o : Result string RenderError) :
  outcome st = Some o -> control_flow st = Exit.
Proof.
  unfold outcome; destruct (control_flow st); [discriminate | reflexivity].
Qed.

(** A tick of a polling loop makes one evaluation when the loop goes on
    polling, and at most three in any case. *)
Lemma tick_evaluations (k : nat) (st : Loop) :
  (control_flow (tick k st) = Poll ->
   control_flow st = Poll ->
   List.length (evals (tick k st)) = S (List.length (evals st)))
  /\ List.length (evals (tick k st)) <= List.length (evals st) + 3.
Proof.
  unfold main_events_cleared, detect_load, wait_for_selector,
    execute_script, extract_html, evaluate_script.
  repeat match goal with
         | |- context [match ?x with _ => _ end] => destruct x
         | |- context [if ?x then _ else _] => destruct x
         end;
    simpl; rewrite ?length_app; simpl; split;
    try (intros H; discriminate H); try lia.
Qed.

Lemma loop_evaluations (fuel : nat) :
  forall k st,
    control_flow st = Poll ->
    (control_flow (loop fuel k st) = Poll ->
     List.length (evals (loop fuel k st)) = List.length (evals st) + fuel)
    /\ List.length (evals (loop fuel k st))
       <= List.length (evals st) + fuel + 2.
Proof.
  induction fuel as [| fuel IH]; intros k st Hpoll.
  - simpl; split; intros; lia.
  - rewrite event_loop_polling by exact Hpoll.
    destruct (tick_evaluations k st) as [Hone Hmax].
    destruct (control_flow (tick k st)) eqn:Ht.
    + specialize (Hone eq_refl Hpoll).
      destruct (IH (S k) (tick k st) Ht) as [Hexact Hbound].
      split; [intros H; rewrite (Hexact H) |]; lia.
    + rewrite event_loop_exited by exact Ht.
      split; [intros H; rewrite Ht in H; discriminate H | lia].
Qed.

(** The evaluations of a session are bounded by its ticks: while the
    loop polls it has made exactly one evaluation per tick, and a session
    of [fuel] ticks has made at most [fuel + 2] evaluations (the last tick
    makes up to three: the selector query, the custom script, the
    extraction). *)
Theorem evaluations_bounded_by_ticks (fuel : nat) :
  List.length (evals (loop fuel 0 init)) <= fuel + 2
  /\ (run fuel = None -> List.length (evals (loop fuel 0 init)) = fuel).
Proof.
  destruct (loop_evaluations fuel 0 init eq_refl) as [Hexact Hbound].
  split; [exact Hbound |].
  unfold run_webview_blocking, outcome.
  destruct (control_flow (loop fuel 0 init)) eqn:E; [| discriminate].
  intros _; exact (Hexact eq_refl).
Qed.

End LoopMore.

Section BeforeLoad.

Import Native Shape.

Variable wv : WebView.
Variable opts : RenderOptions.
Variable timeout_ms : N.
Variable elapsed : nat -> N.

Local Abbreviation tick := (main_events_cleared wv opts timeout_ms elapsed).
Local Abbreviation loop := (event_loop wv opts timeout_ms elapsed).
Local Abbreviation late := (timed_out timeout_ms elapsed).

Lemma tick_only_polled_ready (k : nat) (st : Loop) :
  only_polled_ready st -> only_polled_ready (tick k st).
Proof.
  unfold only_polled_ready; intros H.
  unfold main_events_cleared.
  destruct (timed_out timeout_ms elapsed k); [exact H |].
  destruct (loaded st) eqn:El; simpl.
  - unfold wait_for_selector, execute_script, extract_html, evaluate_script.
    repeat match goal with
           | |- context [match ?x with _ => _ end] => destruct x
           | |- context [if ?x then _ else _] => destruct x
           end;
      simpl; rewrite El; intros Hl; discriminate Hl.
  - destruct (H eq_refl) as [Hlog Hhtml].
    unfold detect_load, evaluate_script.
    destruct (wv (List.length (evals st)) ready_script) as [r | e];
      [destruct (String.eqb r "true") |]; simpl;
      try (intros Hl; discriminate Hl);
      intros _; (split; [| exact Hhtml]);
      apply Forall_app; (split; [exact Hlog |]);
      repeat constructor.
Qed.

Lemma loop_only_polled_ready (fuel : nat) :
  forall k st, only_polled_ready st -> only_polled_ready (loop fuel k st).
Proof.
  induction fuel as [| fuel IH]; intros k st H; simpl; trivial.
  destruct (control_flow st); trivial.
  apply IH, tick_only_polled_ready, H.
Qed.

Lemma unloaded_log (fuel : nat) :
  loaded (loop fuel 0 init) = false ->
  Forall ready_poll (evals (loop fuel 0 init))
  /\ html (loop fuel 0 init) = None.
Proof.
  intros Hl.
  apply (loop_only_polled_ready fuel 0 init); [| exact Hl].
  intros _; split; [constructor | reflexivity].
Qed.

(** Nothing is asked of the page before it is found loaded: in a session
    where the readiness flag was not yet seen true, every evaluation made
    is a poll of the flag; neither the selector query, nor the custom
    script, nor the extraction was evaluated, and no HTML was recorded. *)
Theorem only_ready_polls_before_load (fuel : nat) :
  loaded (loop fuel 0 init) = false ->
  Forall ready_poll (evals (loop fuel 0 init))
  /\ count_evals PWait (loop fuel 0 init) = 0
  /\ count_evals PCustom (loop fuel 0 init) = 0
  /\ count_evals PExtract (loop fuel 0 init) = 0
  /\ html (loop fuel 0 init) = None.
Proof.
  intros Hl.
  destruct (unloaded_log fuel Hl) as [Hlog Hhtml].
  assert (Hcount : forall p, p <> PReady ->
                             count_evals p (loop fuel 0 init) = 0).
  { intros p Hp; unfold count_evals.
    induction Hlog as [| x l [Hx _] _ IH]; simpl; trivial.
    rewrite Hx; destruct p; simpl; trivial; contradiction Hp; reflexivity. }
  repeat split; trivial; apply Hcount; discriminate.
Qed.

(** The flag is never seen true. *)
Hypothesis never_ready : forall n, wv n ready_script <> Ok "true".

Lemma tick_stays_unloaded (k : nat) (st : Loop) :
  loaded st = false -> control_flow st = Poll -> late k = false ->
  loaded (tick k st) = false /\ control_flow (tick k st) = Poll.
Proof.
  intros El Hpoll Hk.
  unfold main_events_cleared; rewrite Hk, El; simpl.
  unfold detect_load, evaluate_script.
  destruct (wv (List.length (evals st)) ready_script) as [r | e] eqn:Ea;
    [destruct (String.eqb r "true") eqn:Er |]; simpl; auto.
  apply String.eqb_eq in Er; subst r.
  contradiction (never_ready _ Ea).
Qed.

Lemma loop_stays_unloaded (fuel : nat) :
  forall k st, loaded st = false -> loaded (loop fuel k st) = false.
Proof.
  induction fuel as [| fuel IH]; intros k st El; simpl; trivial.
  destruct (control_flow st) eqn:Hpoll; trivial.
  apply IH.
  unfold main_events_cleared.
  destruct (timed_out timeout_ms elapsed k) eqn:Hk; [exact El |].
  fold (main_events_cleared wv opts timeout_ms elapsed k st).
  pose proof (tick_stays_unloaded k st El Hpoll Hk) as [H _].
  unfold main_events_cleared in H; rewrite Hk in H; exact H.
Qed.

(** A page that never signals its load ends with the failure [Timeout],
    at the first tick at which the timeout has been reached, and the
    session has evaluated nothing but polls of the readiness flag: the
    selector is never queried and the custom script never run. *)
Theorem never_loaded_times_out :
  (exists k, (timeout_ms <= elapsed k)%N) ->
  exists k0,
    (timeout_ms <= elapsed k0)%N
    /\ (forall j, j < k0 -> (elapsed j < timeout_ms)%N)
    /\ forall fuel, k0 < fuel ->
         run_webview_blocking wv opts timeout_ms elapsed fuel
         = Some (Err Timeout)
         /\ Forall ready_poll (evals (loop fuel 0 init))
         /\ List.length (evals (loop fuel 0 init)) = k0.
Proof.
  intros [k Hk].
  destruct (first_tick late k) as (k0 & _ & Hlate & Hearly).
  { unfold timed_out; now apply N.leb_le. }
  exists k0.
  split; [unfold timed_out in Hlate; now apply N.leb_le in Hlate |].
  split.
  { intros j Hj; specialize (Hearly j Hj).
    unfold timed_out in Hearly; now apply N.leb_gt in Hearly. }
  intros fuel Hfuel.
  assert (Hstep : forall j st,
             loaded st = false -> control_flow st = Poll -> late j = false ->
             loaded (tick j st) = false /\ control_flow (tick j st) = Poll)
    by (intros; now apply tick_stays_unloaded).
  destruct (loop_until_late wv opts timeout_ms elapsed
              (fun st => loaded st = false) Hstep k0 0 init eq_refl eq_refl)
    as [Hpoll Hend].
  { intros j Hj; apply Hearly; lia. }
  split; [apply Hend; [exact Hlate | exact Hfuel] |].
  split.
  - apply unloaded_log, loop_stays_unloaded; reflexivity.
  - replace fuel with (k0 + S (fuel - S k0)) by lia.
    rewrite event_loop_add; simpl Nat.add.
    rewrite event_loop_polling by exact Hpoll.
    rewrite tick_late by exact Hlate.
    rewrite event_loop_exited by reflexivity; simpl.
    destruct (loop_evaluations wv opts timeout_ms elapsed k0 0 init eq_refl)
      as [Hexact _].
    now rewrite (Hexact Hpoll).
Qed.

End BeforeLoad.

Lemma only_ready_polls_before_load_witness :
  Forall Shape.ready_poll
    (Native.evals
       (Native.event_loop (fun _ _ => Ok "false") Sample.extract_missing
          5000 Sample.every_100ms 7 0 Native.init)).
Proof.
  exact (proj1 (only_ready_polls_before_load (fun _ _ => Ok "false")
                  Sample.extract_missing 5000 Sample.every_100ms 7
                  eq_refl)).
Defined.

Lemma never_loaded_times_out_witness :
  exists k0,
    (500 <= Sample.every_100ms k0)%N
    /\ (forall j, j < k0 -> (Sample.every_100ms j < 500)%N)
    /\ forall fuel, k0 < fuel ->
         Native.run_webview_blocking (fun _ _ => Ok "false")
           Sample.extract_missing 500 Sample.every_100ms fuel
         = Some (Err Native.Timeout)
         /\ Forall Shape.ready_poll
              (Native.evals
                 (Native.event_loop (fun _ _ => Ok "false")
                    Sample.extract_missing 500 Sample.every_100ms fuel 0
                    Native.init))
         /\ List.length
              (Native.evals
                 (Native.event_loop (fun _ _ => Ok "false")
                    Sample.extract_missing 500 Sample.every_100ms fuel 0
                    Native.init)) = k0.
Proof.
  apply (never_loaded_times_out (fun _ _ => Ok "false")
           Sample.extract_missing 500 Sample.every_100ms).
  - intros n H; discriminate H.
  - exists 5; apply N.leb_le; reflexivity.
Defined.

Section LastTick.

Import Native.

Variable wv : WebView.
Variable opts : RenderOptions.
Variable timeout_ms : N.
Variable elapsed : nat -> N.

(** The number of ticks after which the page is found loaded. *)
Variable k : nat.

Local Abbreviation tick := (main_events_cleared wv opts timeout_ms elapsed).
Local Abbreviation loop := (event_loop wv opts timeout_ms elapsed).
Local Abbreviation st := (event_loop wv opts timeout_ms elapsed k 0 init).

Hypothesis page_loaded : loaded st = true.
Hypothesis still_polling : control_flow st = Poll.
Hypothesis in_time : timed_out timeout_ms elapsed k = false.

(** The wait for the selector, if there is one, ends at this tick: the
    query answers [true], or its evaluation fails. *)
Hypothesis wait_over :
  forall ws, wait_for opts = Some ws ->
             passed (wv (List.length (evals st)) (wait_check_script ws)).

(** The custom script, if any, evaluates without error. *)
Hypothesis script_succeeds :
  forall cs n, script opts = Some cs -> exists v, wv n cs = Ok v.

(** The call of [evaluate_script] that extracts the HTML: it follows the
    selector query and the custom script of this tick. *)
Local Abbreviation extraction :=
  (wv (List.length (evals st)
       + match wait_for opts with Some _ => 1 | None => 0 end
       + match script opts with Some _ => 1 | None => 0 end)
     (extract_script (selector opts))).

Lemma extract_html_outcome (s : Loop) :
  error s = None ->
  outcome (extract_html wv opts s)
  = Some match wv (List.length (evals s)) (extract_script (selector opts)) with
         | Ok r => Ok (cleaned r)
         | Err e => Err (ScriptExecution e)
         end.
Proof.
  intros He; unfold extract_html, evaluate_script.
  destruct (wv (List.length (evals s)) (extract_script (selector opts)));
    unfold outcome; simpl; rewrite ?He; reflexivity.
Qed.

Lemma execute_script_outcome (s : Loop) :
  error s = None ->
  outcome (execute_script wv opts s)
  = Some match wv (List.length (evals s)
                     + match script opts with Some _ => 1 | None => 0 end)
                 (extract_script (selector opts)) with
         | Ok r => Ok (cleaned r)
         | Err e => Err (ScriptExecution e)
         end.
Proof.
  intros He; unfold execute_script.
  destruct (script opts) as [cs |] eqn:Es.
  - destruct (script_succeeds cs (List.length (evals s)) eq_refl) as [v Hv].
    unfold evaluate_script at 1; rewrite Hv.
    rewrite extract_html_outcome by exact He.
    simpl; rewrite length_app; reflexivity.
  - rewrite extract_html_outcome by exact He.
    now rewrite Nat.add_0_r.
Qed.

Lemma last_tick_outcome :
  outcome (tick k st)
  = Some match extraction with
         | Ok r => Ok (cleaned r)
         | Err e => Err (ScriptExecution e)
         end.
Proof.
  destruct (loop_polling_clean wv opts timeout_ms elapsed k 0 init
              (init_polling_clean) still_polling) as [Hnone _].
  unfold main_events_cleared; rewrite in_time, page_loaded; simpl.
  unfold wait_for_selector.
  destruct (wait_for opts) as [ws |] eqn:Ew.
  - pose proof (wait_over ws eq_refl) as Hw.
    unfold evaluate_script.
    destruct (wv (List.length (evals st)) (wait_check_script ws))
      as [r | e]; simpl in Hw.
    + subst r; simpl.
      rewrite execute_script_outcome by exact Hnone.
      simpl; rewrite length_app; reflexivity.
    + rewrite execute_script_outcome by exact Hnone.
      simpl; rewrite length_app; reflexivity.
  - rewrite execute_script_outcome by exact Hnone.
    now rewrite Nat.add_0_r.
Qed.

(** The tick that ends the waits ends the session.  On a loaded page, in
    time, when the selector waited for is found (or its query fails to
    evaluate, which ends the wait all the same) and the custom script
    evaluates, the result is decided by the extraction alone: its answer,
    cleaned up, is the HTML returned, and its evaluation error is the
    failure [ScriptExecution].  The script evaluated is the one built from
    [selector], the whole document without it. *)
Theorem last_tick_returns_the_extraction :
  forall fuel, k < fuel ->
    run_webview_blocking wv opts timeout_ms elapsed fuel
    = Some match extraction with
           | Ok r => Ok (cleaned r)
           | Err e => Err (ScriptExecution e)
           end.
Proof.
  intros fuel Hfuel.
  unfold run_webview_blocking.
  replace fuel with (k + S (fuel - S k)) by lia.
  rewrite event_loop_add; simpl Nat.add.
  rewrite event_loop_polling by exact still_polling.
  rewrite event_loop_exited by (eapply outcome_exited, last_tick_outcome).
  apply last_tick_outcome.
Qed.

End LastTick.

(** ** More on [replace] and on the escaping of selectors *)

Section ReplaceEquations.

Import Str.

Variables pat to : string.

Lemma drop_succ_length (n : nat) :
  forall s a, String.length (drop (S n) (String a s)) <= String.length s.
Proof.
  induction n as [| n IH]; intros s a; simpl.
  - apply Nat.le_refl.
  - destruct s as [| b s']; simpl; [apply Nat.le_refl |].
    specialize (IH s' b); simpl in IH; lia.
Qed.

(** With a pattern that is not empty, any fuel that covers the length of
    the string gives the same result. *)
Lemma replace_from_fuel (p0 : ascii) (ptl : string) :
  pat = String p0 ptl ->
  forall f f' s,
    String.length s <= f -> String.length s <= f' ->
    replace_from f pat to s = replace_from f' pat to s.
Proof.
  intros Hpat.
  induction f as [| f IH]; intros f' s Hf Hf'.
  - destruct s; [| simpl in Hf; lia].
    destruct f'; reflexivity.
  - destruct f' as [| f'].
    + destruct s; [reflexivity | simpl in Hf'; lia].
    + cbn [replace_from].
      destruct s as [| a rest]; [reflexivity |].
      simpl in Hf, Hf'.
      destruct (prefix pat (String a rest)).
      * f_equal.
        replace (String.length pat) with (S (String.length ptl))
          by (rewrite Hpat; reflexivity).
        pose proof (drop_succ_length (String.length ptl) rest a).
        apply IH; lia.
      * f_equal; apply IH; lia.
Qed.

(** The equation of [replace] on a string that is not empty. *)
Lemma replace_cons (p0 : ascii) (ptl : string) (a : ascii) (rest : string) :
  pat = String p0 ptl ->
  replace pat to (String a rest)
  = if prefix pat (String a rest)
    then to ++ replace pat to (drop (String.length pat) (String a rest))
    else String a (replace pat to rest).
Proof.
  intros Hpat; unfold replace; cbn [String.length replace_from].
  destruct (prefix pat (String a rest)).
  - f_equal.
    pose proof (drop_succ_length (String.length ptl) rest a) as Hd.
    replace (String.length pat) with (S (String.length ptl))
      by (rewrite Hpat; reflexivity).
    apply (replace_from_fuel p0 ptl Hpat); lia.
  - reflexivity.
Qed.

End ReplaceEquations.

Section EscapeFacts.

Import Str Native.

Local Abbreviation quote := (ascii_of_nat 39).

Lemma prefix_empty (s : string) : prefix EmptyString s = true.
Proof. destruct s; reflexivity. Qed.

Lemma escape_nil : escape_single_quotes EmptyString = EmptyString.
Proof. reflexivity. Qed.

Lemma escape_cons (a : ascii) (rest : string) :
  escape_single_quotes (String a rest)
  = if Ascii.eqb a quote
    then String backslash (String quote (escape_single_quotes rest))
    else String a (escape_single_quotes rest).
Proof.
  unfold escape_single_quotes.
  rewrite (replace_cons _ _ quote EmptyString a rest eq_refl).
  cbn [prefix String.length drop].
  destruct (Ascii.eqb_spec a quote) as [-> | Hne].
  - destruct (ascii_dec quote quote) as [_ | Hc];
      [now rewrite prefix_empty | contradiction Hc; reflexivity].
  - destruct (ascii_dec quote a) as [Hc | _];
      [contradiction Hne; now symmetry | reflexivity].
Qed.

Lemma escape_head (s : string) :
  starts_with_char quote (escape_single_quotes s) = false.
Proof.
  destruct s as [| a rest]; [reflexivity |].
  rewrite escape_cons.
  destruct (Ascii.eqb a quote) eqn:E; simpl; [reflexivity | exact E].
Qed.

Lemma ends_with_char_cons (c a b : ascii) (s : string) :
  ends_with_char c (String a (String b s)) = ends_with_char c (String b s).
Proof. reflexivity. Qed.

Lemma escape_quotes_follow_backslash (s : string) :
  forall pre post,
    escape_single_quotes s = pre ++ String quote post ->
    ends_with_char backslash pre = true.
Proof.
  induction s as [| a rest IH]; intros pre post H.
  - rewrite escape_nil in H.
    destruct pre; discriminate H.
  - rewrite escape_cons in H.
    destruct (Ascii.eqb_spec a quote) as [-> | Hne].
    + destruct pre as [| p0 pre]; [discriminate H |].
      injection H as <- H.
      destruct pre as [| p1 pre]; [reflexivity |].
      injection H as <- H.
      destruct pre as [| p2 pre'] eqn:Ep.
      * simpl in H.
        pose proof (escape_head rest) as Hh; rewrite H in Hh.
        discriminate Hh.
      * rewrite <- Ep in *.
        specialize (IH pre post H).
        rewrite ends_with_char_cons.
        rewrite Ep in *; rewrite ends_with_char_cons; exact IH.
    + destruct pre as [| p0 pre].
      * injection H as H _; contradiction Hne.
      * injection H as <- H.
        specialize (IH pre post H).
        destruct pre as [| p1 pre']; [discriminate IH |].
        rewrite ends_with_char_cons; exact IH.
Qed.

Lemma no_escaped_quote_at (a : ascii) (e : string) :
  starts_with_char quote e = false ->
  prefix (String backslash (of_char quote)) (String a e) = false.
Proof.
  intros H; unfold of_char; cbn [prefix].
  destruct (ascii_dec backslash a) as [_ | _]; [| reflexivity].
  destruct e as [| b tl]; [reflexivity |].
  simpl in H; cbn [prefix].
  destruct (ascii_dec quote b) as [<- | _]; [| reflexivity].
  change (Ascii.eqb quote quote) with true in H; discriminate H.
Qed.

Lemma unescape_quote_escape (s : string) :
  replace (String backslash (of_char quote)) (of_char quote)
    (escape_single_quotes s) = s.
Proof.
  induction s as [| a rest IH]; [reflexivity |].
  rewrite escape_cons.
  destruct (Ascii.eqb_spec a quote) as [-> | Hne].
  - rewrite (replace_cons _ _ backslash (of_char quote) _ _ eq_refl).
    cbn [prefix String.length drop of_char].
    destruct (ascii_dec backslash backslash) as [_ | Hc];
      [| contradiction Hc; reflexivity].
    destruct (ascii_dec quote quote) as [_ | Hc];
      [| contradiction Hc; reflexivity].
    rewrite prefix_empty; cbn [append of_char]; f_equal; exact IH.
  - rewrite (replace_cons _ _ backslash (of_char quote) _ _ eq_refl).
    rewrite (no_escaped_quote_at a _ (escape_head rest)).
    f_equal; exact IH.
Qed.

(** The escaping of a selector before it is pasted between single quotes
    in a script: every single quote of the result follows a backslash, a
    selector without single quote is left as it is, and taking the added
    backslashes away gives the selector back, so nothing of it is lost.
    Backslashes of the selector are not escaped. *)
Theorem escape_single_quotes_guards_every_quote (sel : string) :
  (forall pre post,
      escape_single_quotes sel = pre ++ String quote post ->
      ends_with_char backslash pre = true)
  /\ (includes (of_char quote) sel = false ->
      escape_single_quotes sel = sel)
  /\ replace (String backslash (of_char quote)) (of_char quote)
       (escape_single_quotes sel) = sel
  /\ escape_single_quotes (String backslash sel)
     = String backslash (escape_single_quotes sel).
Proof.
  split; [apply escape_quotes_follow_backslash |].
  split; [apply replace_absent |].
  split; [apply unescape_quote_escape |].
  now rewrite escape_cons.
Qed.

End EscapeFacts.

(** ** The scripts, evaluated on a page *)

Section ScriptsOnPage.

Import Str Native MiniJs.

Lemma append_empty_r (s : string) : s ++ EmptyString = s.
Proof. induction s as [| a s IH]; simpl; [| rewrite IH]; reflexivity. Qed.

Lemma append_cons_assoc (s : string) (a : ascii) (t : string) :
  (s ++ of_char a) ++ t = s ++ String a t.
Proof. induction s as [| b s IH]; simpl; [| rewrite IH]; reflexivity. Qed.

Lemma feed_app (a b : string) :
  forall st,
    feed st (a ++ b)
    = match feed st a with Some st' => feed st' b | None => None end.
Proof.
  induction a as [| c a IH]; intros st; simpl; [reflexivity |].
  destruct (step st c); [apply IH | reflexivity].
Qed.

Lemma feed_cons (st : Scanner) (c : ascii) (rest : string) :
  feed st (String c rest)
  = match step st c with Some st' => feed st' rest | None => None end.
Proof. reflexivity. Qed.

(** Inside a string literal, the quoted selector is read back as the
    selector. *)
Lemma feed_escaped_selector (sel : string) :
  plain sel = true ->
  forall read out,
    feed (Quoted read, out) (escape_single_quotes sel)
    = Some (Quoted (read ++ sel), out).
Proof.
  induction sel as [| a sel IH]; intros Hplain read out.
  - rewrite escape_nil, append_empty_r; reflexivity.
  - cbn [plain] in Hplain.
    apply andb_prop in Hplain; destruct Hplain as [Hplain Hrest].
    apply andb_prop in Hplain; destruct Hplain as [Hplain Hcr].
    apply andb_prop in Hplain; destruct Hplain as [Hbs Hnl].
    apply negb_true_iff in Hbs, Hnl, Hcr.
    rewrite escape_cons.
    destruct (Ascii.eqb a (ascii_of_nat 39)) eqn:Hq.
    + apply Ascii.eqb_eq in Hq; subst a.
      rewrite feed_cons.
      change (step (Quoted read, out) backslash)
        with (Some (Escaped read, out)).
      cbv beta match; rewrite feed_cons.
      change (step (Escaped read, out) (ascii_of_nat 39))
        with (Some (Quoted (read ++ of_char (ascii_of_nat 39)), out)).
      cbv beta match.
      rewrite (IH Hrest), append_cons_assoc; reflexivity.
    + rewrite feed_cons; cbn [step].
      fold quote in Hq; rewrite Hq, Hbs, Hnl, Hcr; cbn [orb].
      rewrite (IH Hrest), append_cons_assoc; reflexivity.
Qed.

(** The extraction script spells a call of an arrow function that
    queries the selector and returns the element's [outerHTML], or the
    empty text when there is no element. *)
Lemma parse_extract_script (sel : string) :
  plain sel = true ->
  parse (extract_script (Some sel))
  = Some (Call0
            (Arrow "el"
               (Call1 (Member (Var "document") "querySelector")
                  (Literal sel))
               (Cond (Var "el") (Member (Var "el") "outerHTML")
                  (Literal EmptyString)))).
Proof.
  intros Hplain.
  unfold parse, lex, extract_script.
  rewrite feed_app.
  match goal with
  | |- context [feed (Plain, []) ?pre] =>
      let r := eval vm_compute in (feed (Plain, []) pre) in
      change (feed (Plain, []) pre) with r
  end.
  cbv beta match; rewrite feed_app, (feed_escaped_selector sel Hplain).
  cbn [append]; reflexivity.
Qed.

(** The query of phase 5 spells the double negation of the same call. *)
Lemma parse_wait_check_script (sel : string) :
  plain sel = true ->
  parse (wait_check_script sel)
  = Some (Not (Not (Call1 (Member (Var "document") "querySelector")
                      (Literal sel)))).
Proof.
  intros Hplain.
  unfold parse, lex, wait_check_script.
  rewrite feed_app.
  match goal with
  | |- context [feed (Plain, []) ?pre] =>
      let r := eval vm_compute in (feed (Plain, []) pre) in
      change (feed (Plain, []) pre) with r
  end.
  cbv beta match; rewrite feed_app, (feed_escaped_selector sel Hplain).
  cbn [append]; reflexivity.
Qed.

(** What the extraction script answers on a page. *)
Lemma run_extract_script (page : Page) (sel : string) :
  plain sel = true ->
  run page (extract_script (Some sel))
  = Some match querySelector page sel with
         | Ok (Some outer) => Ok (json_string outer)
         | Ok None => Ok (json_string EmptyString)
         | Err m => Err m
         end.
Proof.
  intros Hplain; unfold run.
  rewrite (parse_extract_script sel Hplain); cbn.
  destruct (querySelector page sel) as [[outer |] | m]; reflexivity.
Qed.

(** What the query of phase 5 answers on a page. *)
Lemma run_wait_check_script (page : Page) (sel : string) :
  plain sel = true ->
  run page (wait_check_script sel)
  = Some match querySelector page sel with
         | Ok (Some _) => Ok "true"
         | Ok None => Ok "false"
         | Err m => Err m
         end.
Proof.
  intros Hplain; unfold run.
  rewrite (parse_wait_check_script sel Hplain); cbn.
  destruct (querySelector page sel) as [[outer |] | m]; reflexivity.
Qed.

Variable pages : nat -> Page.
Variable other : WebView.
Variable opts : RenderOptions.
Variable timeout_ms : N.
Variable elapsed : nat -> N.
Variable sel : string.
Variable k : nat.

Local Abbreviation wv := (browser pages other).
Local Abbreviation st := (event_loop wv opts timeout_ms elapsed k 0 init).

(** The WebView shows a page and evaluates the scripts as their text
    reads.  The extraction selector, which holds no backslash and
    no line break, matches no element of the page.  The page has loaded
    after [k] ticks, at a tick before the timeout at which the selector
    waited for (if any) is present, and the custom script (if any)
    evaluates without error.  Then the extraction script evaluates to
    the empty text, that is answered as a pair of double quotes, and
    the session succeeds with the empty string. *)
Theorem plain_selector_miss_gives_empty_html :
  selector opts = Some sel ->
  plain sel = true ->
  (forall n, querySelector (pages n) sel = Ok None) ->
  loaded st = true ->
  control_flow st = Poll ->
  timed_out timeout_ms elapsed k = false ->
  (forall ws, wait_for opts = Some ws ->
              wv (List.length (evals st)) (wait_check_script ws)
              = Ok "true") ->
  (forall cs n, script opts = Some cs -> exists v, wv n cs = Ok v) ->
  forall fuel, k < fuel ->
    run_webview_blocking wv opts timeout_ms elapsed fuel
    = Some (Ok EmptyString).
Proof.
  intros Hsel Hplain Hmiss Hloaded Hpoll Htime Hwait Hscript.
  apply (quotes_only_answer_gives_empty_html wv opts timeout_ms elapsed
           sel k Hsel Hloaded Hpoll Htime Hwait Hscript).
  intros n; exists 2.
  unfold browser.
  rewrite (run_extract_script (pages n) sel Hplain), (Hmiss n).
  reflexivity.
Qed.

(** A selector that never appears.  The WebView shows a page and
    evaluates the scripts as their text reads; the selector waited for
    holds no backslash and no line break, and at no evaluation does an
    element of the page match it.  Then the session ends with the
    failure [Timeout] at the first tick at which the time elapsed since
    the session started has reached the timeout: the loop polls until
    that tick and returns [Timeout] from it on, whenever the page
    finished loading.  When the first tick comes within [eps] of the
    start and two consecutive ticks are at most [eps] apart, that is at
    most [timeout_ms + eps] after the start. *)
Theorem absent_selector_times_out :
  wait_for opts = Some sel ->
  plain sel = true ->
  (forall n, querySelector (pages n) sel = Ok None) ->
  (exists k, (timeout_ms <= elapsed k)%N) ->
  exists k0,
    (timeout_ms <= elapsed k0)%N
    /\ (forall j, j < k0 -> (elapsed j < timeout_ms)%N)
    /\ (forall fuel, fuel <= k0 ->
          run_webview_blocking wv opts timeout_ms elapsed fuel = None)
    /\ (forall fuel, k0 < fuel ->
          run_webview_blocking wv opts timeout_ms elapsed fuel
          = Some (Err Timeout))
    /\ (forall eps,
          (elapsed 0 <= eps)%N ->
          (forall k, (elapsed (S k) <= elapsed k + eps)%N) ->
          (elapsed k0 <= timeout_ms + eps)%N).
Proof.
  intros Hwait Hplain Habsent Hlate.
  apply (answered_wait_times_out wv opts timeout_ms elapsed sel Hwait);
    [| exact Hlate].
  intros n; exists "false"; split; [| discriminate].
  unfold browser.
  rewrite (run_wait_check_script (pages n) sel Hplain), (Habsent n).
  reflexivity.
Qed.

End ScriptsOnPage.

Lemma absent_selector_times_out_witness :
  exists k0,
    (500 <= Sample.every_100ms k0)%N
    /\ (forall j, j < k0 -> (Sample.every_100ms j < 500)%N)
    /\ (forall fuel, fuel <= k0 ->
          Native.run_webview_blocking
            (MiniJs.browser Pages.strict_dom Pages.quiet) Sample.wait_late
            500 Sample.every_100ms fuel = None)
    /\ (forall fuel, k0 < fuel ->
          Native.run_webview_blocking
            (MiniJs.browser Pages.strict_dom Pages.quiet) Sample.wait_late
            500 Sample.every_100ms fuel = Some (Err Native.Timeout))
    /\ (forall eps,
          (Sample.every_100ms 0 <= eps)%N ->
          (forall k, (Sample.every_100ms (S k)
                      <= Sample.every_100ms k + eps)%N) ->
          (Sample.every_100ms k0 <= 500 + eps)%N).
Proof.
  apply (absent_selector_times_out Pages.strict_dom Pages.quiet
           Sample.wait_late 500 Sample.every_100ms ".late").
  - reflexivity.
  - reflexivity.
  - intros n; reflexivity.
  - exists 5; apply N.leb_le; reflexivity.
Defined.

Lemma plain_selector_miss_gives_empty_html_witness :
  Native.run_webview_blocking (MiniJs.browser Pages.app_dom Pages.quiet)
    Sample.extract_missing 5000 Sample.every_100ms 4
  = Some (Ok EmptyString).
Proof.
  apply (plain_selector_miss_gives_empty_html
           Pages.app_dom Pages.quiet Sample.extract_missing 5000
           Sample.every_100ms ".missing" 3).
  - reflexivity.
  - reflexivity.
  - intros n; reflexivity.
  - reflexivity.
  - reflexivity.
  - reflexivity.
  - intros ws H; injection H as <-; reflexivity.
  - intros cs n H; injection H as <-; exists "null"; reflexivity.
  - constructor.
Defined.

(** The scripts of phases 4, 5 and 7 mean what the phases use them for,
    when the selector holds no backslash and no line break: the
    readiness script answers the flag; the query of phase 5 answers
    whether an element matches the selector, and throws when the
    selector is not valid; the extraction script answers the
    [outerHTML] of the first element that matches, the empty text when
    none does, and throws when the selector is not valid; without a
    selector it answers the [outerHTML] of the document element.  Single
    quotes in the selector are read back as they were written. *)
Theorem scripts_read_the_page (page : MiniJs.Page) (sel : string) :
  MiniJs.plain sel = true ->
  MiniJs.run page Native.ready_script
  = Some (Ok (if MiniJs.renderReady page then "true" else "false"))
  /\ MiniJs.run page (Native.wait_check_script sel)
     = Some match MiniJs.querySelector page sel with
            | Ok (Some _) => Ok "true"
            | Ok None => Ok "false"
            | Err m => Err m
            end
  /\ MiniJs.run page (Native.extract_script (Some sel))
     = Some match MiniJs.querySelector page sel with
            | Ok (Some outer) => Ok (MiniJs.json_string outer)
            | Ok None => Ok (MiniJs.json_string EmptyString)
            | Err m => Err m
            end
  /\ MiniJs.run page (Native.extract_script None)
     = Some (Ok (MiniJs.json_string (MiniJs.documentElement page))).
Proof.
  intros Hplain.
  split; [destruct page as [[] q d]; reflexivity |].
  split; [apply run_wait_check_script, Hplain |].
  split; [apply run_extract_script, Hplain | reflexivity].
Qed.

Lemma scripts_read_the_page_witness :
  MiniJs.run (Pages.app_dom 5) (Native.extract_script (Some "a[title='x']"))
  = Some (Ok (MiniJs.json_string EmptyString))
  /\ MiniJs.run (Pages.app_dom 5) (Native.wait_check_script "#app")
     = Some (Ok "true").
Proof.
  split.
  - exact (proj1 (proj2 (proj2
             (scripts_read_the_page (Pages.app_dom 5) "a[title='x']"
                eq_refl)))).
  - exact (proj1 (proj2
             (scripts_read_the_page (Pages.app_dom 5) "#app" eq_refl))).
Defined.

(** C4, with a selector that holds a backslash.  The selector
    [.md\:flex] names the class [md:flex]; no element of the page
    matches it.  Phase 7 puts a backslash before single quotes only, so
    inside the script's string literal the backslash is taken with the
    colon and the page is asked for [.md:flex], which is not a valid
    selector: [querySelector] throws and the session fails with
    [ScriptExecution] instead of succeeding with the empty string.  On a
    page with an element of id [a] and class [b], the selector [#a\.b]
    matches nothing either, yet the script asks for [#a.b] and the
    session returns that element. *)
Theorem C4_backslash_selector_is_misquoted :
  (forall n, MiniJs.querySelector (Pages.strict_dom n) ".md\:flex" = Ok None)
  /\ MiniJs.parse (Native.extract_script (Some ".md\:flex"))
     = Some (MiniJs.Call0
               (MiniJs.Arrow "el"
                  (MiniJs.Call1
                     (MiniJs.Member (MiniJs.Var "document") "querySelector")
                     (MiniJs.Literal ".md:flex"))
                  (MiniJs.Cond (MiniJs.Var "el")
                     (MiniJs.Member (MiniJs.Var "el") "outerHTML")
                     (MiniJs.Literal EmptyString))))
  /\ Native.run_webview_blocking
       (MiniJs.browser Pages.strict_dom Pages.quiet)
       Sample.extract_escaped_class 5000 Sample.every_100ms 2
     = Some (Err (Native.ScriptExecution
                    "SyntaxError: '.md:flex' is not a valid selector"))
  /\ (forall n, MiniJs.querySelector (Pages.card_dom n) "#a\.b" = Ok None)
  /\ Native.run_webview_blocking
       (MiniJs.browser Pages.card_dom Pages.quiet)
       Sample.extract_escaped_id 5000 Sample.every_100ms 2
     = Some (Ok "<p id=a class=b>x</p>").
Proof. repeat split; vm_compute; reflexivity. Qed.

(** ** The clean-up as the inverse of the quoting *)

Section CleanedRoundTrip.

Import Str Native.

Lemma prefix_cons (c a : ascii) (p s : string) :
  prefix (String c p) (String a s) = Ascii.eqb a c && prefix p s.
Proof.
  cbn [prefix].
  destruct (ascii_dec c a) as [<- | Hne].
  - now rewrite Ascii.eqb_refl.
  - destruct (Ascii.eqb_spec a c) as [-> | _];
      [contradiction Hne; reflexivity | reflexivity].
Qed.

(** [replace] with a pattern of one character, one character at a time. *)
Lemma replace_char_cons (c : ascii) (to : string) (a : ascii)
    (rest : string) :
  replace (String c EmptyString) to (String a rest)
  = if Ascii.eqb a c
    then to ++ replace (String c EmptyString) to rest
    else String a (replace (String c EmptyString) to rest).
Proof.
  rewrite (replace_cons _ _ c EmptyString a rest eq_refl).
  rewrite prefix_cons, prefix_empty, andb_true_r.
  reflexivity.
Qed.

(** [replace] with a pattern of two characters, one position at a time. *)
Lemma replace_pair_cons (c1 c2 : ascii) (to : string) (a : ascii)
    (rest : string) :
  replace (String c1 (String c2 EmptyString)) to (String a rest)
  = if Ascii.eqb a c1 && starts_with_char c2 rest
    then to ++ replace (String c1 (String c2 EmptyString)) to (drop 1 rest)
    else String a (replace (String c1 (String c2 EmptyString)) to rest).
Proof.
  rewrite (replace_cons _ _ c1 (String c2 EmptyString) a rest eq_refl).
  rewrite prefix_cons.
  replace (prefix (String c2 EmptyString) rest)
    with (starts_with_char c2 rest)
    by (destruct rest as [| b tl]; [reflexivity |];
        now rewrite prefix_cons, prefix_empty, andb_true_r).
  reflexivity.
Qed.

(** The quoting that the clean-up is written against: a backslash before
    every double quote, then backslash-n for every line feed. *)
Local Abbreviation quoted :=
  (replace (of_char dquote) escaped_dquote).
Local Abbreviation encoded :=
  (fun s => replace (of_char newline) escaped_newline (quoted s)).

Lemma encoded_cons (a : ascii) (rest : string) :
  encoded (String a rest)
  = if Ascii.eqb a dquote then escaped_dquote ++ encoded rest
    else if Ascii.eqb a newline then escaped_newline ++ encoded rest
    else String a (encoded rest).
Proof.
  cbv beta; unfold escaped_dquote, escaped_newline, of_char.
  rewrite replace_char_cons.
  destruct (Ascii.eqb a dquote).
  - cbn [append]; now rewrite !replace_char_cons.
  - now rewrite replace_char_cons.
Qed.

Lemma no_backslash_cons (a : ascii) (rest : string) :
  includes (of_char backslash) (String a rest) = false ->
  Ascii.eqb a backslash = false
  /\ includes (of_char backslash) rest = false.
Proof.
  cbn [includes]; unfold of_char; rewrite prefix_cons, prefix_empty.
  destruct (Ascii.eqb a backslash); simpl; [discriminate | auto].
Qed.

Lemma decode_newlines (s : string) :
  includes (of_char backslash) s = false ->
  replace escaped_newline (of_char newline) (encoded s) = quoted s.
Proof.
  induction s as [| a rest IH]; [reflexivity |].
  intros H; destruct (no_backslash_cons a rest H) as [Ha Hrest].
  specialize (IH Hrest).
  rewrite encoded_cons.
  unfold escaped_newline, escaped_dquote, of_char in *.
  rewrite replace_char_cons.
  destruct (Ascii.eqb_spec a dquote) as [-> | _].
  - cbn [append]; rewrite !replace_pair_cons; simpl.
    now rewrite IH.
  - destruct (Ascii.eqb_spec a newline) as [-> | _].
    + cbn [append]; rewrite replace_pair_cons; simpl.
      now rewrite IH.
    + rewrite replace_pair_cons, Ha; simpl.
      now rewrite IH.
Qed.

Lemma decode_quotes (s : string) :
  includes (of_char backslash) s = false ->
  replace escaped_dquote (of_char dquote) (quoted s) = s.
Proof.
  induction s as [| a rest IH]; [reflexivity |].
  intros H; destruct (no_backslash_cons a rest H) as [Ha Hrest].
  specialize (IH Hrest).
  unfold escaped_dquote, of_char in *.
  rewrite replace_char_cons.
  destruct (Ascii.eqb_spec a dquote) as [-> | _].
  - cbn [append]; rewrite replace_pair_cons; simpl.
    now rewrite IH.
  - rewrite replace_pair_cons, Ha; simpl.
    now rewrite IH.
Qed.

Lemma encoded_head (s : string) :
  starts_with_char dquote (encoded s) = false.
Proof.
  destruct s as [| a rest]; [reflexivity |].
  rewrite encoded_cons.
  destruct (Ascii.eqb a dquote) eqn:E; [reflexivity |].
  destruct (Ascii.eqb a newline); [reflexivity | exact E].
Qed.

Lemma ends_with_char_app (c : ascii) (x : string) (b : ascii) (t : string) :
  ends_with_char c (x ++ String b t) = ends_with_char c (String b t).
Proof.
  induction x as [| a x IH]; [reflexivity |].
  cbn [append]; rewrite <- IH.
  destruct (x ++ String b t) eqn:E; [| reflexivity].
  destruct x; discriminate E.
Qed.

Lemma encoded_last (s : string) :
  ends_with_char dquote s = false ->
  ends_with_char dquote (encoded s) = false.
Proof.
  induction s as [| a rest IH]; [reflexivity |].
  intros H; rewrite encoded_cons.
  destruct rest as [| b rest'].
  - simpl in H.
    change (encoded EmptyString) with EmptyString.
    rewrite H; destruct (Ascii.eqb a newline); [reflexivity | exact H].
  - rewrite ends_with_char_cons in H; specialize (IH H).
    destruct (encoded (String b rest')) as [| e0 e] eqn:E.
    + rewrite encoded_cons in E.
      destruct (Ascii.eqb b dquote); [discriminate E |].
      destruct (Ascii.eqb b newline); discriminate E.
    + destruct (Ascii.eqb a dquote);
        [| destruct (Ascii.eqb a newline)];
        rewrite ?ends_with_char_app, ?ends_with_char_cons; exact IH.
Qed.

Lemma trim_matches_kept (c : ascii) (t : string) :
  starts_with_char c t = false -> ends_with_char c t = false ->
  trim_matches c t = t.
Proof.
  intros Hs He; unfold trim_matches.
  replace (trim_start_matches c t) with t
    by (destruct t; simpl in *; [| rewrite Hs]; reflexivity).
  clear Hs; induction t as [| a rest IH]; [reflexivity |].
  cbn [trim_end_matches].
  destruct rest as [| b rest'].
  - simpl in *; now rewrite He.
  - rewrite ends_with_char_cons in He; now rewrite (IH He).
Qed.

(** The clean-up gives back the HTML it was quoted from, when the HTML
    holds no backslash and does not end with a double quote: for such a
    string, wrapped in double quotes with its double quotes and line feeds
    written as backslash-quote and backslash-n, [cleaned] returns the
    string itself. *)
Theorem cleaned_undoes_quoting (s : string) :
  includes (of_char backslash) s = false ->
  ends_with_char dquote s = false ->
  cleaned (of_char dquote ++ encoded s ++ of_char dquote) = s.
Proof.
  intros Hb He.
  unfold cleaned.
  change (of_char dquote) with (repeat_char dquote 1) at 1 3.
  rewrite trim_matches_wrapped.
  rewrite trim_matches_kept
    by (apply encoded_head || (apply encoded_last; exact He)).
  unfold unescape.
  rewrite decode_newlines by exact Hb.
  apply decode_quotes, Hb.
Qed.

End CleanedRoundTrip.

(** ** The clean-up, one character at a time *)

Section CleanedClaims.

Import Str Native.

Local Abbreviation decode_newline :=
  (replace escaped_newline (of_char newline)).

(** Decoding backslash-n neither adds nor removes a double quote at the
    start. *)
Lemma decode_newline_head (s : string) :
  starts_with_char dquote (decode_newline s) = starts_with_char dquote s.
Proof.
  destruct s as [| b r]; [reflexivity |].
  unfold escaped_newline, of_char; rewrite replace_pair_cons.
  destruct (Ascii.eqb_spec b backslash) as [-> | Hb]; [| reflexivity].
  destruct (starts_with_char "n" r); reflexivity.
Qed.

Lemma decode_newline_after_quote (s : string) :
  starts_with_char dquote s = true ->
  drop 1 (decode_newline s) = decode_newline (drop 1 s).
Proof.
  destruct s as [| b r]; [discriminate |].
  cbn [starts_with_char]; intros Hb.
  apply Ascii.eqb_eq in Hb; subst b.
  unfold escaped_newline, of_char; rewrite replace_pair_cons.
  reflexivity.
Qed.

(** The two [replace] calls, as one pass from left to right. *)
Lemma unescape_cons (a : ascii) (rest : string) :
  unescape (String a rest)
  = if Ascii.eqb a backslash && starts_with_char "n" rest
    then String newline (unescape (drop 1 rest))
    else if Ascii.eqb a backslash && starts_with_char dquote rest
         then String dquote (unescape (drop 1 rest))
         else String a (unescape rest).
Proof.
  unfold unescape at 1.
  unfold escaped_newline at 1, of_char at 2; rewrite replace_pair_cons.
  destruct (Ascii.eqb a backslash && starts_with_char "n" rest).
  - cbn [append].
    unfold escaped_dquote at 1, of_char at 1 2; rewrite replace_pair_cons.
    reflexivity.
  - unfold escaped_dquote at 1, of_char at 1 2; rewrite replace_pair_cons.
    fold (of_char dquote); fold escaped_dquote.
    fold (of_char newline); fold escaped_newline.
    rewrite decode_newline_head.
    destruct (Ascii.eqb a backslash && starts_with_char dquote rest) eqn:Hq.
    + apply andb_prop in Hq; destruct Hq as [_ Hq].
      rewrite (decode_newline_after_quote rest Hq); reflexivity.
    + reflexivity.
Qed.

(** C10, as the code has it.  The clean-up removes every double quote
    at the start and at the end of the evaluator's answer, however many
    there are, and nothing else at the ends, so a serialized value that
    itself starts or ends with double quotes loses them with the
    wrapping pair.  It then reads what is left from left to right: a
    backslash followed by n becomes a line feed, a backslash followed by
    a double quote becomes a double quote, and every other character is
    copied.  An answer in which neither sequence occurs comes back as it
    is, so backslash-t and backslash-u stay undecoded; a doubled
    backslash stays too unless n or a double quote follows it, in which
    case its second backslash is decoded with that character. *)
Theorem C10_cleaned_trims_all_quotes_decodes_two_escapes
    (n m : nat) (s : string) :
  cleaned (repeat_char dquote n ++ s ++ repeat_char dquote m) = cleaned s
  /\ (starts_with_char dquote (trim_matches dquote s) = false
      /\ ends_with_char dquote (trim_matches dquote s) = false)
  /\ (exists n' m',
        s = repeat_char dquote n' ++ trim_matches dquote s
              ++ repeat_char dquote m')
  /\ cleaned s = unescape (trim_matches dquote s)
  /\ unescape EmptyString = EmptyString
  /\ (forall a rest,
        unescape (String a rest)
        = if Ascii.eqb a backslash && starts_with_char "n" rest
          then String newline (unescape (drop 1 rest))
          else if Ascii.eqb a backslash && starts_with_char dquote rest
               then String dquote (unescape (drop 1 rest))
               else String a (unescape rest))
  /\ (includes escaped_newline s = false ->
      includes escaped_dquote s = false ->
      unescape s = s)
  /\ cleaned (repeat_char dquote 2 ++ "hi" ++ repeat_char dquote 2) = "hi"
  /\ cleaned (of_char dquote ++ "x" ++ escaped_dquote ++ of_char dquote)
     = "x" ++ of_char backslash
  /\ cleaned (of_char dquote ++ "a\tb\\c\u0041" ++ of_char dquote)
     = "a\tb\\c\u0041"
  /\ cleaned (of_char dquote ++ "a\\nb" ++ of_char dquote)
     = "a" ++ of_char backslash ++ of_char newline ++ "b".
Proof.
  split; [unfold cleaned; now rewrite trim_matches_wrapped |].
  split; [apply trim_matches_ends |].
  split; [apply trim_matches_split |].
  split; [reflexivity |].
  split; [reflexivity |].
  split; [exact unescape_cons |].
  split.
  - intros Hn Hq; unfold unescape.
    rewrite (replace_absent escaped_newline (of_char newline) s Hn).
    apply replace_absent, Hq.
  - repeat split; reflexivity.
Qed.

Lemma C10_witness :
  unescape "<p>a\tb</p>" = "<p>a\tb</p>".
Proof.
  exact (proj1 (proj2 (proj2 (proj2 (proj2 (proj2 (proj2
    (C10_cleaned_trims_all_quotes_decodes_two_escapes
       0 0 "<p>a\tb</p>")))))))
    eq_refl eq_refl).
Defined.

(** C10, as the claim words it, fails: the serialization of the text
    a, backslash, n, b holds a doubled backslash, and the clean-up does
    not return it undecoded; the second backslash is taken with the n
    that follows and a line feed comes back. *)
Lemma C10_counterexample :
  cleaned (of_char dquote ++ "a\\nb" ++ of_char dquote) <> "a\\nb"
  /\ includes "\\" (cleaned (of_char dquote ++ "a\\nb" ++ of_char dquote))
     = false
  /\ includes (of_char newline)
       (cleaned (of_char dquote ++ "a\\nb" ++ of_char dquote))
     = true.
Proof. repeat split; vm_compute; discriminate || reflexivity. Qed.

End CleanedClaims.

(** ** The options handed to [render] *)

Section OptionObjects.

Import Js.

(** A property that is absent reads as [undefined]. *)
Lemma get_absent (o : Object) (k : string) :
  ~ In k (map fst o) -> get o k = Undefined.
Proof.
  unfold get; induction o as [| [k0 v0] o IH]; simpl; intros H; trivial.
  destruct (String.eqb_spec k0 k) as [-> | _].
  - contradiction H; now left.
  - apply IH; intros Hin; apply H; now right.
Qed.

(** Deleting the properties that are [undefined] changes no reading. *)
Lemma get_defined (o : Object) (k : string) :
  NoDup (map fst o) ->
  get (filter (fun kv => negb (is_undefined (snd kv))) o) k = get o k.
Proof.
  induction o as [| [k0 v0] o IH]; simpl; intros Hnd; trivial.
  inversion Hnd as [| ? ? Hnotin Hnd']; subst.
  specialize (IH Hnd').
  destruct (is_undefined v0) eqn:Hu; simpl.
  - unfold get in *; simpl.
    destruct (String.eqb_spec k0 k) as [-> | _]; [| exact IH].
    rewrite IH; simpl.
    destruct v0; try discriminate Hu.
    exact (get_absent o k Hnotin).
  - unfold get in *; simpl.
    destruct (String.eqb k0 k); [reflexivity | exact IH].
Qed.

Lemma get_copied (options : Object) (k : string) :
  get (map (fun k => (k, get options k)) option_keys) k
  = if existsb (String.eqb k) option_keys then get options k
    else Undefined.
Proof.
  unfold get at 1, option_keys.
  cbn [map find fst snd existsb].
  rewrite !(String.eqb_sym k).
  repeat match goal with
         | |- context [String.eqb ?a k] =>
             destruct (String.eqb_spec a k) as [<- | _];
             cbn [orb snd]; trivial
         end.
Qed.

Lemma option_keys_distinct (f : string -> Value) :
  NoDup (map fst (map (fun k => (k, f k)) option_keys)).
Proof.
  simpl; repeat constructor; simpl; intuition discriminate.
Qed.

Lemma get_renderOptions (options : Object) (k : string) :
  get (renderOptions options) k
  = if existsb (String.eqb k) option_keys then get options k
    else Undefined.
Proof.
  unfold renderOptions.
  rewrite get_defined by apply option_keys_distinct.
  apply get_copied.
Qed.

(** [render] hands on the four options it knows and nothing else: a
    reading of the object it builds gives what the caller's options give
    for [timeout], [waitFor], [selector] and [script], and [undefined] for
    every other key; the object holds no property whose value is
    [undefined], and only those keys. *)
Theorem render_forwards_known_options (options : Object) (k : string) :
  get (renderOptions options) k
  = (if existsb (String.eqb k) option_keys then get options k
     else Undefined)
  /\ Forall (fun kv => In (fst kv) option_keys /\ snd kv <> Undefined
                       /\ snd kv = get options (fst kv))
       (renderOptions options).
Proof.
  split; [apply get_renderOptions |].
  apply Forall_forall; intros [k0 v0] Hin.
  unfold renderOptions in Hin.
  apply filter_In in Hin; destruct Hin as [Hin Hdef].
  apply in_map_iff in Hin; destruct Hin as (k1 & Heq & Hk1).
  injection Heq as <- <-; simpl in *.
  repeat split; trivial.
  intros Hu; rewrite Hu in Hdef; discriminate Hdef.
Qed.

Lemma get_truthy (o : Object) (k : string) :
  NoDup (map fst o) ->
  get (filter (fun kv => truthy (snd kv)) o) k
  = if truthy (get o k) then get o k else Undefined.
Proof.
  induction o as [| [k0 v0] o IH]; simpl; intros Hnd; trivial.
  inversion Hnd as [| ? ? Hnotin Hnd']; subst.
  specialize (IH Hnd').
  destruct (truthy v0) eqn:Ht; simpl.
  - unfold get in *; simpl.
    destruct (String.eqb k0 k); [simpl; now rewrite Ht | exact IH].
  - unfold get in *; simpl.
    destruct (String.eqb_spec k0 k) as [-> | _]; [| exact IH].
    simpl; rewrite Ht, IH.
    pose proof (get_absent o k Hnotin) as Ha; unfold get in Ha.
    now rewrite Ha.
Qed.

(** The command-line tools pass an option on to [render] only when its
    value is truthy: through both steps a reading of the final object
    gives the parsed value of a known option that is truthy, and
    [undefined] otherwise, so a timeout of 0, an empty selector or script,
    and [null] are never forwarded and [render] falls back on its
    defaults. *)
Theorem cli_forwards_truthy_options (options : Object) (k : string) :
  get (renderOptions (Cli.renderOptions options)) k
  = if existsb (String.eqb k) option_keys && truthy (get options k)
    then get options k
    else Undefined.
Proof.
  rewrite get_renderOptions.
  destruct (existsb (String.eqb k) option_keys) eqn:Hk; simpl; trivial.
  unfold Cli.renderOptions.
  rewrite get_truthy by apply option_keys_distinct.
  now rewrite get_copied, Hk.
Qed.

End OptionObjects.

Section ContentType.

Import Str.

Lemma prefix_app (pat post : string) : prefix pat (pat ++ post) = true.
Proof.
  induction pat as [| c pat IH]; simpl; [apply prefix_empty |].
  destruct (ascii_dec c c) as [_ | Hc]; [exact IH | contradiction Hc].
  reflexivity.
Qed.

Lemma includes_unfold (pat s : string) :
  includes pat s
  = if prefix pat s then true
    else match s with
         | EmptyString => false
         | String _ rest => includes pat rest
         end.
Proof. destruct s; reflexivity. Qed.

(** A string includes what it is built around. *)
Lemma includes_app (pat pre post : string) :
  includes pat (pre ++ pat ++ post) = true.
Proof.
  induction pre as [| a pre IH]; simpl append.
  - rewrite includes_unfold; now rewrite prefix_app.
  - rewrite includes_unfold.
    destruct (prefix pat (String a (pre ++ pat ++ post))); trivial.
Qed.

(** The response is rendered when its content type mentions [text/html]
    or [application/xhtml] anywhere, parameters such as the charset
    notwithstanding; a response without the header, or with an empty one,
    is returned as it is. *)
Theorem html_content_types_are_rendered (pre post : string) :
  Cli.isHtmlResponse (Some (pre ++ "text/html" ++ post)) = true
  /\ Cli.isHtmlResponse (Some (pre ++ "application/xhtml" ++ post)) = true
  /\ Cli.isHtmlResponse None = false
  /\ Cli.isHtmlResponse (Some EmptyString) = false.
Proof.
  assert (Htruthy : forall a b c : string,
             Dispatcher.truthy (a ++ String "t" b ++ c) = true
             /\ Dispatcher.truthy (a ++ String "a" b ++ c) = true)
    by (intros a b c; destruct a; split; reflexivity).
  repeat split; trivial; unfold Cli.isHtmlResponse.
  - rewrite (proj1 (Htruthy pre _ post)); simpl negb; cbv iota.
    now rewrite (includes_app "text/html").
  - rewrite (proj2 (Htruthy pre _ post)); simpl negb; cbv iota.
    rewrite (includes_app "application/xhtml"); apply orb_true_r.
Qed.

End ContentType.

(** ** Faults of the worker *)

Section WorkerFaults.

Variable renderPage :
  string -> Dispatcher.Options -> Result string Worker.JsError.
Variable url : string.
Variable options : Dispatcher.Options.

Local Abbreviation render_with events :=
  (Dispatcher.renderInChildProcess url options
     (Pipeline.delivered (Worker.run renderPage events))).

(** What the parent is delivered from a worker starts with what the
    worker sent on its first event. *)
Lemma delivered_first (e : Worker.Event) (events : list Worker.Event) :
  exists rest,
    Pipeline.delivered (Worker.run renderPage (e :: events))
    = (map Dispatcher.OnMessage
         (Worker.sent (Worker.handle renderPage Worker.started e))
       ++ rest)%list.
Proof.
  unfold Worker.run; cbn [fold_left].
  destruct (fold_handle_sent renderPage events
              (Worker.handle renderPage Worker.started e)) as [more H].
  unfold Pipeline.delivered; rewrite H, map_app, <- app_assoc.
  eexists; reflexivity.
Qed.

(** A call that is settled once the first messages were delivered keeps
    that settlement, and its worker is not killed later. *)
Lemma settled_by_first_messages (first rest : list Dispatcher.Event) :
  Dispatcher.resolved (Dispatcher.deliver url options first) = true ->
  Dispatcher.settled
    (Dispatcher.renderInChildProcess url options (first ++ rest))
  = Dispatcher.settled (Dispatcher.deliver url options first)
  /\ Dispatcher.killed
       (Dispatcher.renderInChildProcess url options (first ++ rest))
     = Dispatcher.killed (Dispatcher.deliver url options first).
Proof.
  intros Hr.
  change (Dispatcher.renderInChildProcess url options (first ++ rest))
    with (Dispatcher.handle url options
            (Dispatcher.deliver url options (first ++ rest))
            Dispatcher.OnKillTimeout).
  rewrite deliver_app.
  destruct (fold_handle_resolved url options rest _ Hr) as [Hr' Hs].
  destruct (handle_resolved url options _ Dispatcher.OnKillTimeout Hr')
    as [_ Hs'].
  split.
  - now rewrite Hs', Hs.
  - rewrite (handle_resolved_keeps_killed url options _ _ Hr').
    now apply fold_handle_resolved_keeps_killed.
Qed.

(** An uncaught exception raised in a worker that has not answered yet
    reaches the caller.  The message the worker sends for it starts with
    a fixed text, so it is never empty and the dispatcher never ignores
    it: the call is rejected with [Uncaught exception: ] followed by the
    text of the error, whatever the worker runs afterwards, and the
    worker is not killed.  An exception raised after the worker has sent
    a result changes nothing: the call stays resolved with that result. *)
Theorem uncaught_fault_reaches_caller
    (fault : Worker.JsError) (events : list Worker.Event) :
  Dispatcher.settled
    (render_with (Worker.UncaughtException fault :: events))
  = [Dispatcher.Reject ("Uncaught exception: " ++ Worker.error_text fault)]
  /\ Dispatcher.killed
       (render_with (Worker.UncaughtException fault :: events))
     = false
  /\ forall request page,
      renderPage (Worker.url request) (Worker.options_or_empty request)
      = Ok page ->
      Dispatcher.settled
        (render_with
           (Worker.Incoming request
            :: Worker.UncaughtException fault :: events))
      = [Dispatcher.Resolve page].
Proof.
  split; [| split].
  - destruct (delivered_first (Worker.UncaughtException fault) events)
      as [rest ->].
    now destruct (settled_by_first_messages
                    (map Dispatcher.OnMessage
                       (Worker.sent
                          (Worker.handle renderPage Worker.started
                             (Worker.UncaughtException fault))))
                    rest eq_refl) as [-> _].
  - destruct (delivered_first (Worker.UncaughtException fault) events)
      as [rest ->].
    now destruct (settled_by_first_messages
                    (map Dispatcher.OnMessage
                       (Worker.sent
                          (Worker.handle renderPage Worker.started
                             (Worker.UncaughtException fault))))
                    rest eq_refl) as [_ ->].
  - intros request page Hpage.
    destruct (delivered_first (Worker.Incoming request)
                (Worker.UncaughtException fault :: events)) as [rest ->].
    rewrite (handle_incoming renderPage Worker.started request eq_refl).
    rewrite Hpage.
    now destruct (settled_by_first_messages
                    (map Dispatcher.OnMessage
                       (Worker.sent
                          (Worker.send_then_exit
                             (Worker.success_message page) 0
                             Worker.started)))
                    rest eq_refl) as [-> _].
Qed.

End WorkerFaults.

(** ** Instances *)

Lemma kill_timer_waits_beyond_render_timeout_witness :
  Dispatcher.kill_delay Sample.timeout_8000 = 10000%Z
  /\ Dispatcher.settled
       (fold_left (Dispatcher.handle "http://a.test/" Sample.timeout_8000)
          [Dispatcher.OnExit None]
          (Dispatcher.renderInChildProcess "http://a.test/"
             Sample.timeout_8000
             [Dispatcher.OnMessage Worker.ready_message]))
     = [Dispatcher.Reject "Render timeout after 8000ms"].
Proof.
  assert (Ht : Shape.effective_timeout Sample.timeout_8000 8000).
  { left; split; [reflexivity | discriminate]. }
  assert (Hrange : (1 <= 8000 + 2000 <= Dispatcher.TIMEOUT_MAX)%Z)
    by (unfold Dispatcher.TIMEOUT_MAX; lia).
  pose proof (kill_timer_waits_beyond_render_timeout "http://a.test/"
                Sample.timeout_8000
                [Dispatcher.OnMessage Worker.ready_message]
                [Dispatcher.OnExit None] 8000 Ht Hrange eq_refl) as H.
  split; [exact (proj1 H) |].
  exact (proj1 (proj2 (proj2 (proj2 (proj2 H))))).
Defined.

Lemma uncaught_fault_reaches_caller_witness :
  Dispatcher.settled
    (Dispatcher.renderInChildProcess "http://a.test/" Dispatcher.no_options
       (Pipeline.delivered
          (Worker.run Sample.renders_but_bad
             [Worker.Incoming Sample.good_request;
              Worker.UncaughtException Sample.boom;
              Worker.SendCallback])))
  = [Dispatcher.Resolve "<html></html>"].
Proof.
  exact (proj2 (proj2
           (uncaught_fault_reaches_caller Sample.renders_but_bad
              "http://a.test/" Dispatcher.no_options Sample.boom
              [Worker.SendCallback]))
           Sample.good_request "<html></html>" eq_refl).
Defined.

Lemma child_error_rejects_witness :
  Dispatcher.settled
    (Dispatcher.renderInChildProcess "http://a.test/" Dispatcher.no_options
       ([Dispatcher.OnMessage Worker.ready_message]
          ++ Dispatcher.OnError "spawn ENOMEM"
          :: [Dispatcher.OnExit (Some 1%Z)]))
  = [Dispatcher.Reject "spawn ENOMEM"].
Proof.
  exact (proj1 (child_error_rejects "http://a.test/" Dispatcher.no_options
                  [Dispatcher.OnMessage Worker.ready_message]
                  [Dispatcher.OnExit (Some 1%Z)] "spawn ENOMEM" eq_refl)).
Defined.

Lemma last_tick_returns_the_extraction_witness :
  Native.run_webview_blocking MoreSamples.failing_query_page
    MoreSamples.whole_document 5000 Sample.every_100ms 2
  = Some (Ok "<html></html>").
Proof.
  apply (last_tick_returns_the_extraction MoreSamples.failing_query_page
           MoreSamples.whole_document 5000 Sample.every_100ms 1).
  - reflexivity.
  - reflexivity.
  - reflexivity.
  - intros ws H; injection H as <-; exact I.
  - intros cs n H; discriminate H.
  - constructor.
Defined.

Lemma cleaned_undoes_quoting_witness :
  Native.cleaned
    (Str.of_char Str.dquote
     ++ Str.replace (Str.of_char Str.newline) Native.escaped_newline
          (Str.replace (Str.of_char Str.dquote) Native.escaped_dquote
             MoreSamples.paragraph)
     ++ Str.of_char Str.dquote)
  = MoreSamples.paragraph.
Proof.
  exact (cleaned_undoes_quoting MoreSamples.paragraph eq_refl eq_refl).
Defined.
